(** * UnionStation: the predictive job scheduler of union-station

    A shallow embedding of [UnionStation.ts] (the dispatcher), of
    [util/arrayMin.ts], [util/Completer.ts] and [util/debounceIdleCallback.ts],
    and the properties of admission, completion handling, estimate
    recomputation, reflow, readiness and construction.

    Conventions of the embedding.
    - A JavaScript [number] that counts something (job ids, [running],
      [readyCount], [localQueueSize], [maxWorkers], [length]) is a [Z]; a
      [number] that measures milliseconds ([estimate], [mean], [dt],
      [fallbackTime]) is an exact rational [Q]: rounding of IEEE doubles is
      not modelled, and neither are NaN and the infinities.
    - The class's private fields are the fields of the record [State]; every
      method takes the state and returns the new one, with the messages it
      posted and the promises it resolved as a list of [Effect]s.
    - An uncaught exception is [Throw]. *)

From Stdlib Require Import ZArith QArith Qfield Lia.
From stdpp Require Import base option list gmap strings.

Local Open Scope string_scope.
Local Open Scope list_scope.
Local Open Scope Z_scope.

(** ** Exceptions *)

Inductive JsError : Type :=
| TypeError
| RangeError.

Inductive Result (A : Type) : Type :=
| Ok (a : A)
| Throw (e : JsError).
Arguments Ok {A} a.
Arguments Throw {A} e.

Definition bind {A B : Type} (m : Result A) (k : A -> Result B) : Result B :=
  match m with
  | Ok a => k a
  | Throw e => Throw e
  end.

Notation "'let*' x ':=' m 'in' k" := (bind m (fun x => k))
  (at level 10, x pattern, m at level 100, k at level 200).

(** ** types.ts *)

(** [any]: the payloads and results are opaque to the dispatcher. *)
Inductive any : Type :=
| Undefined
| Num (q : Q)
| Str (s : string).

Record UnionWorkerCallRequest : Type := mkCall {
  id : Z;
  name : string;
  data : any;
  workgroupLength : Z
}.

Inductive UnionWorkerRequest : Type :=
| setup_ack (localQueueSize : Z)
| call_plain (call : UnionWorkerCallRequest)
| call_priority (call : UnionWorkerCallRequest).

Inductive UnionWorkerResponse : Type :=
| setup
| done_ (id : Z) (name : string) (result : any) (dt : Q).

(** ** util/arrayMin.ts *)

Definition Qlt_bool (a b : Q) : bool := negb (Qle_bool b a).

Section ArrayMin.
Context {T : Type} (fn : T -> Q).

(** The [for] loop of [arrayMin], from index [i] on, over the elements
    [rest] that are left. *)
Fixpoint arrayMin_loop (rest : list T) (i : nat) (min : Q) (minIdx : nat) : nat :=
  match rest with
  | [] => minIdx
  | x :: rest' =>
      let value := fn x in
      if Qlt_bool value min
      then arrayMin_loop rest' (S i) value i
      else arrayMin_loop rest' (S i) min minIdx
  end.

Definition arrayMin (array : list T) : option (T * nat) :=
  match array with
  | [] => None
  | a0 :: rest =>
      let minIdx := arrayMin_loop rest 1 (fn a0) 0 in
      Some (nth minIdx array a0, minIdx)
  end.
End ArrayMin.

(** ** UnionStation.ts: the data *)

Record WorkerStatus : Type := mkStatus {
  estimate : Q;
  running : Z
}.

Definition getWorkerNumericValue (a : WorkerStatus) : Q := estimate a.

Module Entry.
(** An entry of [#estimates]: [{ length, mean }]. *)
Record t : Type := mk { length : Z; mean : Q }.
End Entry.

(** A [Worker] object, named by the iteration of the constructor's loop that
    created it. *)
Definition Worker : Type := nat.

(** A [Completer] made by [call], named by the job id of that call; the
    promise it wraps is the one [call] returns. *)
Definition Completer : Type := Z.

(** The arguments of a [call] after the options are deswizzled. *)
Record CallArgs : Type := mkArgs {
  arg_name : string;
  arg_data : any;
  arg_workgroupLength : Z;
  arg_priority : bool
}.

Inductive Effect : Type :=
| PostMessage (worker : Worker) (msg : UnionWorkerRequest)
| Resolve (completer : Completer) (result : any)
| ResolveIsReady.

Record State : Type := mkState {
  localQueueSize : Z;
  fallbackTime : Q;
  workers : list Worker;
  workerStatus : list WorkerStatus;
  jobId : Z;
  jobs : gmap Z Completer;
  readyCount : Z;
  (** [#isReady.isCompleted] *)
  isReady : bool;
  (** the calls suspended at [await this.isReady], oldest first *)
  awaiting : list CallArgs;
  estimates : gmap string Entry.t;
  pendingEstimates : list (string * Q);
  globalQueue : list UnionWorkerCallRequest;
  (** the [scheduled] flag of the debounced [#updateEstimates] *)
  updateEstimates_scheduled : bool;
  (** the [scheduled] flag of the debounced [#reflow] *)
  reflow_scheduled : bool
}.

(** Assignment to one field, the others kept. *)

Definition set_workerStatus (v : list WorkerStatus) (st : State) : State :=
  mkState (localQueueSize st) (fallbackTime st) (workers st) v (jobId st)
    (jobs st) (readyCount st) (isReady st) (awaiting st) (estimates st)
    (pendingEstimates st) (globalQueue st) (updateEstimates_scheduled st)
    (reflow_scheduled st).

Definition set_jobId (v : Z) (st : State) : State :=
  mkState (localQueueSize st) (fallbackTime st) (workers st) (workerStatus st)
    v (jobs st) (readyCount st) (isReady st) (awaiting st) (estimates st)
    (pendingEstimates st) (globalQueue st) (updateEstimates_scheduled st)
    (reflow_scheduled st).

Definition set_jobs (v : gmap Z Completer) (st : State) : State :=
  mkState (localQueueSize st) (fallbackTime st) (workers st) (workerStatus st)
    (jobId st) v (readyCount st) (isReady st) (awaiting st) (estimates st)
    (pendingEstimates st) (globalQueue st) (updateEstimates_scheduled st)
    (reflow_scheduled st).

Definition set_readyCount (v : Z) (st : State) : State :=
  mkState (localQueueSize st) (fallbackTime st) (workers st) (workerStatus st)
    (jobId st) (jobs st) v (isReady st) (awaiting st) (estimates st)
    (pendingEstimates st) (globalQueue st) (updateEstimates_scheduled st)
    (reflow_scheduled st).

Definition set_isReady (v : bool) (st : State) : State :=
  mkState (localQueueSize st) (fallbackTime st) (workers st) (workerStatus st)
    (jobId st) (jobs st) (readyCount st) v (awaiting st) (estimates st)
    (pendingEstimates st) (globalQueue st) (updateEstimates_scheduled st)
    (reflow_scheduled st).

Definition set_awaiting (v : list CallArgs) (st : State) : State :=
  mkState (localQueueSize st) (fallbackTime st) (workers st) (workerStatus st)
    (jobId st) (jobs st) (readyCount st) (isReady st) v (estimates st)
    (pendingEstimates st) (globalQueue st) (updateEstimates_scheduled st)
    (reflow_scheduled st).

Definition set_estimates (v : gmap string Entry.t) (st : State) : State :=
  mkState (localQueueSize st) (fallbackTime st) (workers st) (workerStatus st)
    (jobId st) (jobs st) (readyCount st) (isReady st) (awaiting st) v
    (pendingEstimates st) (globalQueue st) (updateEstimates_scheduled st)
    (reflow_scheduled st).

Definition set_pendingEstimates (v : list (string * Q)) (st : State) : State :=
  mkState (localQueueSize st) (fallbackTime st) (workers st) (workerStatus st)
    (jobId st) (jobs st) (readyCount st) (isReady st) (awaiting st)
    (estimates st) v (globalQueue st) (updateEstimates_scheduled st)
    (reflow_scheduled st).

Definition set_globalQueue (v : list UnionWorkerCallRequest) (st : State) : State :=
  mkState (localQueueSize st) (fallbackTime st) (workers st) (workerStatus st)
    (jobId st) (jobs st) (readyCount st) (isReady st) (awaiting st)
    (estimates st) (pendingEstimates st) v (updateEstimates_scheduled st)
    (reflow_scheduled st).

Definition set_updateEstimates_scheduled (v : bool) (st : State) : State :=
  mkState (localQueueSize st) (fallbackTime st) (workers st) (workerStatus st)
    (jobId st) (jobs st) (readyCount st) (isReady st) (awaiting st)
    (estimates st) (pendingEstimates st) (globalQueue st) v
    (reflow_scheduled st).

Definition set_reflow_scheduled (v : bool) (st : State) : State :=
  mkState (localQueueSize st) (fallbackTime st) (workers st) (workerStatus st)
    (jobId st) (jobs st) (readyCount st) (isReady st) (awaiting st)
    (estimates st) (pendingEstimates st) (globalQueue st)
    (updateEstimates_scheduled st) v.

(** ** UnionStation.ts: the constructor *)

Record UnionStationOptions : Type := mkOptions {
  opt_localQueueSize : option Z;
  opt_maxWorkers : option Z;
  (** [Object.entries(timeSnapshot)], when a snapshot is given *)
  opt_timeSnapshot : option (list (string * Q));
  opt_fallbackTime : option Q
}.

Definition no_options : UnionStationOptions := mkOptions None None None None.

(** [new Array(n)] raises a range error unless [n] is an array length. *)
Definition new_Array (n : Z) : Result nat :=
  if (n <? 0) || (2 ^ 32 - 1 <? n) then Throw RangeError else Ok (Z.to_nat n).

Definition constructor (hardwareConcurrency : Z) (url : string)
    (options : UnionStationOptions) : Result State :=
  let localQueueSize := default 8 (opt_localQueueSize options) in
  let maxWorkers := default 4 (opt_maxWorkers options) in
  let fallbackTime := default (10 # 1)%Q (opt_fallbackTime options) in
  let cpuCount := hardwareConcurrency in
  let workerCount := Z.min (cpuCount - 1) maxWorkers in
  let* n := new_Array workerCount in
  let workerStatus := replicate n (mkStatus 0 0) in
  let workers := seq 0 n in
  let estimates :=
    match opt_timeSnapshot options with
    | Some entries =>
        fold_left (fun m '(name, mean) => <[name := Entry.mk 1 mean]> m)
          entries (∅ : gmap string Entry.t)
    | None => ∅
    end in
  Ok (mkState localQueueSize fallbackTime workers workerStatus
        0 ∅ 0 false [] estimates [] [] false false).

(** ** UnionStation.ts: estimates *)

Definition getEstimate (st : State) (type : string) : Q :=
  match estimates st !! type with
  | None => fallbackTime st
  | Some estimate => Entry.mean estimate
  end.

(** One iteration of the loop of [#updateEstimates]. The entry is changed in
    place, that is, the map holds the changed entry afterwards. *)
Definition updateEstimates_iter (estimates : gmap string Entry.t)
    (sample : string * Q) : gmap string Entry.t :=
  let '(name, dt) := sample in
  match estimates !! name with
  | None => <[name := Entry.mk 1 dt]> estimates
  | Some estimate =>
      let length := Entry.length estimate + 1 in
      let mean :=
        ((Entry.mean estimate * inject_Z (length - 1) + dt) / inject_Z length)%Q in
      <[name := Entry.mk length mean]> estimates
  end.

(** The function wrapped by [debounceIdleCallback] in [#updateEstimates]. *)
Definition updateEstimates_fn (st : State) : State :=
  set_estimates (fold_left updateEstimates_iter (pendingEstimates st) (estimates st)) st.

(** ** UnionStation.ts: admission *)

(** A reference to a [WorkerStatus] object. The constructor makes one object
    per slot of [#workerStatus] and no slot is assigned again, so the object
    in slot [i] is named [i]; [filter] copies references, not objects. *)
Definition StatusRef : Type := nat.

(** The object behind a reference; references are only made for the slots
    of the array, so the default value is never read. *)
Definition deref (st : State) (r : StatusRef) : WorkerStatus :=
  default (mkStatus 0 0) (workerStatus st !! r).

Definition eligibleWorkers (st : State) (priority : bool) : list StatusRef :=
  let all := seq 0 (length (workerStatus st)) in
  if priority then all
  else filter (fun r => running (deref st r) < localQueueSize st) all.

(** [#schedule]. [arrayMin] is given the (filtered) array of references and
    returns the chosen reference with its index IN THAT ARRAY; the bookkeeping
    goes through the reference, the message goes to [#workers] at the index.
    [arrayMin(...)!] cannot be [undefined] past the emptiness test. *)
Definition schedule (st : State) (call : UnionWorkerCallRequest) (priority : bool)
    : Result (bool * State * list Effect) :=
  let eligibleWorkers := eligibleWorkers st priority in
  if Nat.eqb (length eligibleWorkers) 0 then Ok (false, st, [])
  else
    match arrayMin (fun r => getWorkerNumericValue (deref st r)) eligibleWorkers with
    | None => Throw TypeError
    | Some (status, workerIdx) =>
        let old := deref st status in
        let st' :=
          set_workerStatus
            (<[status := mkStatus (estimate old + getEstimate st (name call))%Q
                                  (running old + 1)]> (workerStatus st)) st in
        match workers st !! workerIdx with
        | None => Throw TypeError
        | Some worker =>
            if priority
            then Ok (true, st', [PostMessage worker (call_priority call)])
            else Ok (true, st', [PostMessage worker (call_plain call)])
        end
    end.

(** ** UnionStation.ts: reflow *)

(** The [while] loop of [#reflow] from index [i] on; [rest] is the part of
    the queue from [i] on ([#schedule] does not touch the queue). It returns
    the final [i]. *)
Fixpoint reflow_loop (st : State) (rest : list UnionWorkerCallRequest) (i : nat)
    : Result (nat * State * list Effect) :=
  match rest with
  | [] => Ok (i, st, [])
  | job :: rest' =>
      let* (accepted, st', eff) := schedule st job false in
      if accepted
      then let* (i', st'', eff') := reflow_loop st' rest' (S i) in
           Ok (i', st'', eff ++ eff')
      else Ok (i, st', eff)
  end.

(** The function wrapped by [debounceIdleCallback] in [#reflow]. *)
Definition reflow_fn (st : State) : Result (State * list Effect) :=
  match globalQueue st with
  | [] => Ok (st, [])
  | _ =>
      let* (i, st', eff) := reflow_loop st (globalQueue st) 0 in
      Ok (set_globalQueue (drop i (globalQueue st')) st', eff)
  end.

(** ** util/debounceIdleCallback.ts *)

(** A call of the debounced [#updateEstimates]: nothing when a callback is
    already requested, else [requestIdleCallback] with the flag set. *)
Definition updateEstimates (st : State) : State :=
  if updateEstimates_scheduled st then st
  else set_updateEstimates_scheduled true st.

(** A call of the debounced [#reflow]. *)
Definition reflow (st : State) : State :=
  if reflow_scheduled st then st
  else set_reflow_scheduled true st.

(** The host runs the idle callback requested by [#updateEstimates]. *)
Definition idle_updateEstimates (st : State) : State :=
  updateEstimates_fn (set_updateEstimates_scheduled false st).

(** The host runs the idle callback requested by [#reflow]. *)
Definition idle_reflow (st : State) : Result (State * list Effect) :=
  reflow_fn (set_reflow_scheduled false st).

(** ** UnionStation.ts: messages from the workers *)

(** [#onMessage]. The handler is installed by the constructor for the slots
    of the pool only; for another [workerIdx] the array reads give
    [undefined] and the handler raises. [if (completer)] tests whether the
    map has the id (a [Completer] object is never falsy). The [done] case has
    no [break] and falls into [default], which only breaks. *)
Definition onMessage (st : State) (workerIdx : nat) (data : UnionWorkerResponse)
    : Result (State * list Effect) :=
  match data with
  | setup =>
      match workers st !! workerIdx with
      | None => Throw TypeError
      | Some worker =>
          let eff := [PostMessage worker (setup_ack (localQueueSize st))] in
          let st := set_readyCount (readyCount st + 1) st in
          if readyCount st =? Z.of_nat (length (workers st))
          then Ok (set_isReady true st, eff ++ [ResolveIsReady])
          else Ok (st, eff)
      end
  | done_ id name result dt =>
      let '(st, eff) :=
        match jobs st !! id with
        | Some completer =>
            (set_jobs (delete id (jobs st)) st, [Resolve completer result])
        | None => (st, [])
        end in
      match workerStatus st !! workerIdx with
      | None => Throw TypeError
      | Some status =>
          let status :=
            mkStatus (estimate status - getEstimate st name)%Q (running status - 1) in
          let st := set_workerStatus (<[workerIdx := status]> (workerStatus st)) st in
          let st := set_pendingEstimates (pendingEstimates st ++ [(name, dt)]) st in
          let st := updateEstimates st in
          let st :=
            if (running status =? 0) && negb (Nat.eqb (length (globalQueue st)) 0)
            then reflow st else st in
          Ok (st, eff)
      end
  end.

(** ** UnionStation.ts: call *)

(** [call] from the line after the wait for readiness on. *)
Definition call_ready (st : State) (a : CallArgs) : Result (State * list Effect) :=
  let jobId_ := jobId st in
  let st := set_jobId (jobId st + 1) st in
  let completer : Completer := jobId_ in
  let call := mkCall jobId_ (arg_name a) (arg_data a) (arg_workgroupLength a) in
  let st := set_jobs (<[jobId_ := completer]> (jobs st)) st in
  let* (accepted, st, eff) := schedule st call (arg_priority a) in
  if accepted then Ok (st, eff)
  else Ok (set_globalQueue (globalQueue st ++ [call]) st, eff).

(** [call]: while [#isReady] is not completed the caller is suspended at
    [await this.isReady]. *)
Definition call (st : State) (a : CallArgs) : Result (State * list Effect) :=
  if isReady st then call_ready st a
  else Ok (set_awaiting (awaiting st ++ [a]) st, []).

(** The continuations of the calls suspended at [await this.isReady] run, in
    the order of the calls, once the promise is resolved and the handler that
    resolved it has returned. *)
Fixpoint resume_all (st : State) (suspended : list CallArgs)
    : Result (State * list Effect) :=
  match suspended with
  | [] => Ok (st, [])
  | a :: suspended' =>
      let* (st', eff) := call_ready st a in
      let* (st'', eff') := resume_all st' suspended' in
      Ok (st'', eff ++ eff')
  end.

(** The microtasks after a task: the suspended calls, when the gate is open. *)
Definition microtasks (st : State) : Result (State * list Effect) :=
  if isReady st
  then resume_all (set_awaiting [] st) (awaiting st)
  else Ok (st, []).

(** ** The event loop *)

(** What the host can run on the station's thread: the [onmessage] handler
    of a worker, a [call] of the client, and the two idle callbacks. *)
Inductive Event : Type :=
| Message (workerIdx : nat) (data : UnionWorkerResponse)
| Call (a : CallArgs)
| IdleUpdateEstimates
| IdleReflow.

(** One task of the event loop, followed by its microtasks. An idle callback
    that was not requested does not run. *)
Definition task (st : State) (ev : Event) : Result (State * list Effect) :=
  match ev with
  | Message workerIdx data => onMessage st workerIdx data
  | Call a => call st a
  | IdleUpdateEstimates =>
      if updateEstimates_scheduled st then Ok (idle_updateEstimates st, [])
      else Ok (st, [])
  | IdleReflow =>
      if reflow_scheduled st then idle_reflow st else Ok (st, [])
  end.

Definition step (st : State) (ev : Event) : Result (State * list Effect) :=
  let* (st', eff) := task st ev in
  let* (st'', eff') := microtasks st' in
  Ok (st'', eff ++ eff').

Fixpoint run (st : State) (evs : list Event) : Result (State * list Effect) :=
  match evs with
  | [] => Ok (st, [])
  | ev :: evs' =>
      let* (st', eff) := step st ev in
      let* (st'', eff') := run st' evs' in
      Ok (st'', eff ++ eff')
  end.

(** ** Notions used by the statements *)

(** [is_leftmost_min fn array k]: slot [k] of [array] holds a minimum of
    [fn], and every slot to its left holds a strictly larger value. *)
Definition is_leftmost_min {T : Type} (fn : T -> Q) (array : list T) (k : nat) : Prop :=
  exists m, array !! k = Some m
    /\ (forall j x, array !! j = Some x -> (fn m <= fn x)%Q)
    /\ (forall j x, (j < k)%nat -> array !! j = Some x -> (fn m < fn x)%Q).

(** The two arrays of the pool have the same length; the constructor makes
    them so and nothing resizes them. *)
Definition pool_ok (st : State) : Prop :=
  length (workers st) = length (workerStatus st).

(** The state after the bookkeeping of [#schedule] on the status object [r]. *)
Definition charged (st : State) (r : StatusRef) (type : string) : State :=
  set_workerStatus
    (<[r := mkStatus (estimate (deref st r) + getEstimate st type)%Q
                     (running (deref st r) + 1)]> (workerStatus st)) st.

(** The message of [#schedule] for a job. *)
Definition request (priority : bool) (c : UnionWorkerCallRequest) : UnionWorkerRequest :=
  if priority then call_priority c else call_plain c.

(** [accepts st jobs st' eff]: [#schedule] without priority accepts the jobs
    one after the other, from [st] to [st'], posting [eff]. *)
Inductive accepts : State -> list UnionWorkerCallRequest -> State -> list Effect -> Prop :=
| accepts_nil (st : State) : accepts st [] st []
| accepts_cons (st st' st'' : State) (job : UnionWorkerCallRequest)
    (jobs : list UnionWorkerCallRequest) (eff eff' : list Effect) :
    schedule st job false = Ok (true, st', eff) ->
    accepts st' jobs st'' eff' ->
    accepts st (job :: jobs) st'' (eff ++ eff').

(** The observed durations of one job type in a buffer of samples, in order. *)
Definition durations_of (type : string) (buffer : list (string * Q)) : list Q :=
  snd <$> filter (fun sample => fst sample = type) buffer.

Definition Qsum (ds : list Q) : Q := fold_right Qplus 0%Q ds.

(** [kept_by_admission st st']: the fields that [#schedule], [call] and
    [#reflow] never assign are the same in both states. *)
Definition kept_by_admission (st st' : State) : Prop :=
  localQueueSize st' = localQueueSize st
  /\ fallbackTime st' = fallbackTime st
  /\ workers st' = workers st
  /\ readyCount st' = readyCount st
  /\ isReady st' = isReady st
  /\ awaiting st' = awaiting st
  /\ estimates st' = estimates st
  /\ pendingEstimates st' = pendingEstimates st
  /\ updateEstimates_scheduled st' = updateEstimates_scheduled st
  /\ reflow_scheduled st' = reflow_scheduled st.






(** ** Concrete stations *)

(** The runs used as concrete inputs: a station built by the constructor
    and driven by a list of events. *)
Definition after (hardwareConcurrency : Z) (options : UnionStationOptions)
    (evs : list Event) : Result (State * list Effect) :=
  let* st := constructor hardwareConcurrency "worker.js" options in
  run st evs.

Definition capacity_1 : UnionStationOptions := mkOptions (Some 1) None None None.
Definition add_args : CallArgs := mkArgs "add" Undefined 0 false.
Definition add_priority_args : CallArgs := mkArgs "add" Undefined 0 true.
Definition add_job (id : Z) : UnionWorkerCallRequest := mkCall id "add" Undefined 0.

(** One worker, capacity 1, one job accepted and not yet completed. *)
Definition busy_station : State :=
  mkState 1 (10 # 1) [0%nat] [mkStatus (10 # 1) 1] 1 {[0 := 0]} 1 true []
    ∅ [] [] false false.

(** One worker, capacity 1, running two jobs: a plain one and a priority one. *)
Definition overfull_station : State :=
  mkState 1 (10 # 1) [0%nat] [mkStatus (20 # 1) 2] 2 {[0 := 0; 1 := 1]} 1 true []
    ∅ [] [] false false.

(** Two workers, capacity 1, one job charged to the first worker. *)
Definition one_busy_station : State :=
  mkState 1 (10 # 1) [0%nat; 1%nat] [mkStatus (10 # 1) 1; mkStatus 0 0] 1 {[0 := 0]}
    2 true [] ∅ [] [] false false.

(** One idle worker of capacity 1 and two jobs in the global queue; the
    idle callbacks of both debounced functions are requested. *)
Definition queued_station : State :=
  mkState 1 (10 # 1) [0%nat] [mkStatus 0 0] 3 {[1 := 1; 2 := 2]} 1 true []
    ∅ [("add", 4 # 1)%Q] [add_job 1; add_job 2] true true.

(** ** util/Completer.ts *)

Module Completer_ts.

(** The promise made by the constructor. Its two resolving functions settle
    it the first time one of them is called and do nothing afterwards.
    (Resolving with a thenable is not modelled: [any] has none.) *)
Inductive PromiseState : Type :=
| Pending
| Fulfilled (value : any)
| Rejected (error : any).

Record t : Type := mk { promise : PromiseState; isCompleted : bool }.

Definition new : t := mk Pending false.

Definition settle (p outcome : PromiseState) : PromiseState :=
  match p with
  | Pending => outcome
  | _ => p
  end.

Definition resolve (c : t) (value : any) : t :=
  mk (settle (promise c) (Fulfilled value)) true.

Definition reject (c : t) (error : any) : t :=
  mk (settle (promise c) (Rejected error)) true.

(** A method call on a completer, and a sequence of them. *)
Inductive Method : Type :=
| call_resolve (value : any)
| call_reject (error : any).

Definition invoke (c : t) (m : Method) : t :=
  match m with
  | call_resolve value => resolve c value
  | call_reject error => reject c error
  end.

Definition outcome (m : Method) : PromiseState :=
  match m with
  | call_resolve value => Fulfilled value
  | call_reject error => Rejected error
  end.

End Completer_ts.

(** ** util/debounceIdleCallback.ts, on its own *)

Module debounceIdleCallback_ts.

(** The closure returned by [debounceIdleCallback fn]: its [scheduled] flag
    and the idle callbacks it has requested from the host and that have not
    run yet, each with the arguments it holds, oldest first. *)
Record t (A : Type) : Type := mk { scheduled : bool; requested : list A }.
Arguments mk {A} scheduled requested.
Arguments scheduled {A} _.
Arguments requested {A} _.

Definition new {A : Type} : t A := mk false [].

(** A call of the returned function with [args]. *)
Definition debounced {A : Type} (d : t A) (args : A) : t A :=
  if scheduled d then d
  else mk true (requested d ++ [args]).

(** The host runs the oldest requested idle callback: the flag is cleared
    and [fn] is called with the arguments the callback holds (the result is
    those arguments, [None] when no callback is requested). *)
Definition idle {A : Type} (d : t A) : t A * option A :=
  match requested d with
  | [] => (d, None)
  | args :: rest => (mk false rest, Some args)
  end.

Inductive Event (A : Type) : Type :=
| Invoke (args : A)
| Idle.
Arguments Invoke {A} args.
Arguments Idle {A}.

(** The closure after a list of events, with the arguments of the calls of
    [fn] that happened, in order. *)
Fixpoint run {A : Type} (d : t A) (evs : list (Event A)) : t A * list A :=
  match evs with
  | [] => (d, [])
  | Invoke args :: evs' => run (debounced d args) evs'
  | Idle :: evs' =>
      let '(d', called) := idle d in
      let '(d'', calls) := run d' evs' in
      (d'', match called with Some args => args :: calls | None => calls end)
  end.

Fixpoint idles {A : Type} (evs : list (Event A)) : nat :=
  match evs with
  | [] => 0
  | Idle :: evs' => S (idles evs')
  | _ :: evs' => idles evs'
  end.

End debounceIdleCallback_ts.

(** ** UnionStation.ts: getTimeSnapshot *)


(** ** The assignments of the handlers, one at a time *)

(** [touch st eff st']: one assignment (or one group of assignments made
    together) of a handler, from [st] to [st'], with what it posts or
    resolves. Every handler is a sequence of these (see [step_touches]). *)
Inductive touch : State -> list Effect -> State -> Prop :=
| touch_charge (st : State) (priority : bool) (c : UnionWorkerCallRequest)
    (r : StatusRef) (k : nat) (w : Worker) :
    eligibleWorkers st priority !! k = Some r ->
    workers st !! k = Some w ->
    touch st [PostMessage w (request priority c)] (charged st r (name c))
| touch_take_id (st : State) :
    touch st [] (set_jobs (<[jobId st := jobId st]> (jobs st)) (set_jobId (jobId st + 1) st))
| touch_take_id_enqueue (st : State) (c : UnionWorkerCallRequest) :
    id c = jobId st ->
    touch st []
      (set_globalQueue (globalQueue st ++ [c])
         (set_jobs (<[jobId st := jobId st]> (jobs st)) (set_jobId (jobId st + 1) st)))
| touch_dequeue (st : State) (k : nat) :
    touch st [] (set_globalQueue (drop k (globalQueue st)) st)
| touch_await (st : State) (a : CallArgs) :
    touch st [] (set_awaiting (awaiting st ++ [a]) st)
| touch_awaken (st : State) :
    touch st [] (set_awaiting [] st)
| touch_ack (st : State) (i : nat) (w : Worker) :
    workers st !! i = Some w ->
    touch st [PostMessage w (setup_ack (localQueueSize st))]
      (set_readyCount (readyCount st + 1) st)
| touch_open (st : State) :
    touch st [ResolveIsReady] (set_isReady true st)
| touch_resolve (st : State) (id : Z) (c : Completer) (result : any) :
    jobs st !! id = Some c ->
    touch st [Resolve c result] (set_jobs (delete id (jobs st)) st)
| touch_done (st : State) (i : nat) (s : WorkerStatus) (type : string) (dt : Q) :
    workerStatus st !! i = Some s ->
    touch st []
      (set_pendingEstimates (pendingEstimates st ++ [(type, dt)])
         (set_workerStatus
            (<[i := mkStatus (estimate s - getEstimate st type)%Q (running s - 1)]>
               (workerStatus st)) st))
| touch_updateEstimates_scheduled (st : State) (b : bool) :
    touch st [] (set_updateEstimates_scheduled b st)
| touch_reflow_scheduled (st : State) (b : bool) :
    touch st [] (set_reflow_scheduled b st)
| touch_recompute (st : State) :
    touch st [] (updateEstimates_fn st).

(** A sequence of assignments, with all it posts and resolves, in order. *)
Inductive touches : State -> list Effect -> State -> Prop :=
| touches_nil (st : State) : touches st [] st
| touches_cons (st st' st'' : State) (eff eff' : list Effect) :
    touch st eff st' -> touches st' eff' st'' -> touches st (eff ++ eff') st''.

(** The sum of the [running] counts of the pool. *)
Definition total_running (st : State) : Z :=
  foldr Z.add 0 (running <$> workerStatus st).

(** The number of jobs posted to workers among the effects. *)
Fixpoint posts (eff : list Effect) : Z :=
  match eff with
  | [] => 0
  | PostMessage _ (call_plain _) :: eff' => 1 + posts eff'
  | PostMessage _ (call_priority _) :: eff' => 1 + posts eff'
  | _ :: eff' => posts eff'
  end.

(** The futures resolved among the effects, with the values, in order. *)
Fixpoint resolved (eff : list Effect) : list (Completer * any) :=
  match eff with
  | [] => []
  | Resolve c result :: eff' => (c, result) :: resolved eff'
  | _ :: eff' => resolved eff'
  end.

Definition is_call_priority (e : Effect) : Prop :=
  exists w c, e = PostMessage w (call_priority c).

(** The job ids in use: the pending futures are named by their ids, which
    are below the next id, and the queue holds ids below the next id in
    increasing order. *)
Definition ids_ok (st : State) : Prop :=
  (forall id c, jobs st !! id = Some c -> c = id /\ id < jobId st)
  /\ (forall i c, globalQueue st !! i = Some c -> id c < jobId st)
  /\ (forall i j c c', (i < j)%nat ->
        globalQueue st !! i = Some c -> globalQueue st !! j = Some c' -> id c < id c').


(** [estimates_grow st st']: every entry of the table of [st] is still in
    the table of [st'], with at least as many samples. *)
Definition estimates_grow (st st' : State) : Prop :=
  forall type e, estimates st !! type = Some e ->
    exists e', estimates st' !! type = Some e' /\ Entry.length e <= Entry.length e'.

(** The futures resolved so far, [R], are gone from the map of pending jobs
    and their ids are not given again. *)
Definition resolved_ok (st : State) (R : list Completer) : Prop :=
  ids_ok st
  /\ (forall c, c ∈ R -> c < jobId st /\ jobs st !! c = None)
  /\ NoDup R.

(** The effects of admission: plain or priority [call] messages only. *)
Definition is_call_post (e : Effect) : Prop :=
  exists w priority c, e = PostMessage w (request priority c).

(** The request that [call] builds for its arguments under a job id. *)
Definition request_of (id : Z) (a : CallArgs) : UnionWorkerCallRequest :=
  mkCall id (arg_name a) (arg_data a) (arg_workgroupLength a).

(** The call [a] was served under [id]: its request was posted to a worker
    (with the tag of its priority) or is in the global queue. *)
Definition served (st : State) (eff : list Effect) (a : CallArgs) (id : Z) : Prop :=
  (exists w, PostMessage w (request (arg_priority a) (request_of id a)) ∈ eff)
  \/ request_of id a ∈ globalQueue st.

(** The gate was just resolved by the last [setup] of a pool of one worker,
    with two calls suspended. *)
Definition opening_station : State :=
  mkState 1 (10 # 1) [0%nat] [mkStatus 0 0] 0 ∅ 1 true [add_args; add_priority_args]
    ∅ [] [] false false.

(** * Properties *)

(** ** arrayMin *)

Lemma Qlt_bool_iff (a b : Q) : Qlt_bool a b = true <-> (a < b)%Q.
Proof.
  unfold Qlt_bool. rewrite negb_true_iff. split.
  - intros H. apply Qnot_le_lt. intros Hle.
    apply Qle_bool_iff in Hle. congruence.
  - intros H. destruct (Qle_bool b a) eqn:E; [|reflexivity].
    apply Qle_bool_iff in E. exfalso. exact (Qlt_not_le _ _ H E).
Qed.

Section ArrayMinSpec.
Context {T : Type} (fn : T -> Q).

Lemma arrayMin_loop_spec (rest : list T) :
  forall (pre : list T) (minIdx : nat),
    is_leftmost_min fn pre minIdx ->
    forall min, (exists m, pre !! minIdx = Some m /\ min = fn m) ->
    is_leftmost_min fn (pre ++ rest)
      (arrayMin_loop fn rest (length pre) min minIdx).
Proof.
  induction rest as [|x rest IH]; intros pre minIdx Hmin min Hm; simpl.
  - rewrite app_nil_r. exact Hmin.
  - destruct Hm as (m & Hk & ->).
    destruct Hmin as (m' & Hk' & Hle & Hlt).
    assert (m' = m) as -> by congruence.
    replace (pre ++ x :: rest) with ((pre ++ [x]) ++ rest)
      by (rewrite <- app_assoc; reflexivity).
    replace (S (length pre)) with (length (pre ++ [x]))
      by (rewrite length_app; simpl; lia).
    destruct (Qlt_bool (fn x) (fn m)) eqn:E.
    + apply Qlt_bool_iff in E.
      apply IH.
      * exists x. split; [apply list_lookup_middle; reflexivity|]. split.
        -- intros j y Hj. apply lookup_app_Some in Hj as [Hj|[_ Hj]].
           ++ apply Qle_trans with (fn m); [apply Qlt_le_weak, E|eauto].
           ++ apply list_lookup_singleton_Some in Hj as [_ <-]. apply Qle_refl.
        -- intros j y Hlt' Hj. rewrite lookup_app_l in Hj by exact Hlt'.
           apply Qlt_le_trans with (fn m); [exact E|eauto].
      * exists x. split; [apply list_lookup_middle; reflexivity|reflexivity].
    + assert (fn m <= fn x)%Q as Hmx.
      { apply Qnot_lt_le. intros H. apply Qlt_bool_iff in H. congruence. }
      assert (minIdx < length pre)%nat as Hb by (eapply lookup_lt_Some; eauto).
      apply IH.
      * exists m. split; [rewrite lookup_app_l; assumption|]. split.
        -- intros j y Hj. apply lookup_app_Some in Hj as [Hj|[_ Hj]]; [eauto|].
           apply list_lookup_singleton_Some in Hj as [_ <-]. exact Hmx.
        -- intros j y Hlt' Hj. rewrite lookup_app_l in Hj by lia. eauto.
      * exists m. split; [rewrite lookup_app_l; assumption|reflexivity].
Qed.

Lemma arrayMin_None (array : list T) : arrayMin fn array = None <-> array = [].
Proof. destruct array; simpl; split; congruence. Qed.

Lemma is_leftmost_min_singleton (a0 : T) : is_leftmost_min fn [a0] 0.
Proof.
  exists a0. split; [reflexivity|]. split.
  - intros [|j] x Hx; simpl in Hx.
    + injection Hx as <-. apply Qle_refl.
    + rewrite lookup_nil in Hx. discriminate.
  - intros j x Hlt. lia.
Qed.

(** [arrayMin] returns the leftmost minimum and its index. *)
Lemma arrayMin_spec (array : list T) (item : T) (idx : nat) :
  arrayMin fn array = Some (item, idx) ->
  array !! idx = Some item /\ is_leftmost_min fn array idx.
Proof.
  destruct array as [|a0 rest]; unfold arrayMin; [congruence|].
  intros [= <- <-].
  pose proof (arrayMin_loop_spec rest [a0] 0 (is_leftmost_min_singleton a0) (fn a0)) as H.
  simpl in H. specialize (H ltac:(exists a0; split; reflexivity)).
  split; [|exact H].
  destruct H as (m & Hm & _).
  set (k := arrayMin_loop fn rest 1 (fn a0) 0) in *.
  change ((a0 :: rest) !! k = Some (nth k (a0 :: rest) a0)).
  rewrite nth_lookup. change ([a0] ++ rest) with (a0 :: rest) in Hm.
  rewrite Hm. reflexivity.
Qed.
End ArrayMinSpec.

(** ** Admission *)

Lemma deref_lookup (st : State) (r : StatusRef) (s : WorkerStatus) :
  workerStatus st !! r = Some s -> deref st r = s.
Proof. unfold deref. intros ->. reflexivity. Qed.

Lemma eligibleWorkers_lt (st : State) (priority : bool) (k : nat) (r : StatusRef) :
  eligibleWorkers st priority !! k = Some r ->
  (r < length (workerStatus st))%nat /\ (k <= r)%nat.
Proof.
  unfold eligibleWorkers. destruct priority.
  - intros H. apply lookup_seq in H. lia.
  - generalize (length (workerStatus st)). intros n. revert k r.
    assert (forall b k r,
      filter (fun r => running (deref st r) < localQueueSize st) (seq b n) !! k = Some r ->
      (b + k <= r < b + n)%nat) as G.
    { induction n as [|n IH]; intros b k r; simpl.
      - rewrite filter_nil, lookup_nil. discriminate.
      - rewrite filter_cons. case_decide.
        + destruct k as [|k]; simpl.
          * intros [= <-]. lia.
          * intros Hk. apply IH in Hk. lia.
        + intros Hk. apply IH in Hk. lia. }
    intros k r H. apply G in H. lia.
Qed.

Lemma eligibleWorkers_priority (st : State) :
  eligibleWorkers st true = seq 0 (length (workerStatus st)).
Proof. reflexivity. Qed.

Lemma elem_of_eligibleWorkers (st : State) (r : StatusRef) :
  r ∈ eligibleWorkers st false <->
  exists s, workerStatus st !! r = Some s /\ running s < localQueueSize st.
Proof.
  unfold eligibleWorkers. rewrite list_elem_of_filter, elem_of_seq. split.
  - intros [Hr Hlt].
    destruct (lookup_lt_is_Some_2 (workerStatus st) r ltac:(lia)) as [s Hs].
    exists s. rewrite (deref_lookup _ _ _ Hs) in Hr. auto.
  - intros (s & Hs & Hr). rewrite (deref_lookup _ _ _ Hs). split; [exact Hr|].
    apply lookup_lt_Some in Hs. lia.
Qed.

(** No worker is eligible for a non-priority job exactly when every worker
    runs at least [localQueueSize] jobs. *)
Lemma eligibleWorkers_nil (st : State) :
  eligibleWorkers st false = [] <->
  Forall (fun s => localQueueSize st <= running s) (workerStatus st).
Proof.
  rewrite Forall_lookup. split.
  - intros Hnil i s Hs.
    destruct (Z_lt_le_dec (running s) (localQueueSize st)) as [Hlt|]; [|assumption].
    assert (i ∈ eligibleWorkers st false) as Hin
      by (apply elem_of_eligibleWorkers; eauto).
    rewrite Hnil in Hin. apply elem_of_nil in Hin. contradiction.
  - intros Hall. apply elem_of_nil_inv. intros r Hin.
    apply elem_of_eligibleWorkers in Hin as (s & Hs & Hlt).
    specialize (Hall _ _ Hs). simpl in Hall. lia.
Qed.

(** What [#schedule] does, by the two cases of its eligible set. *)
Lemma schedule_cases (st : State) (c : UnionWorkerCallRequest) (priority : bool) :
  (eligibleWorkers st priority = [] /\ schedule st c priority = Ok (false, st, []))
  \/ (exists (r : StatusRef) (k : nat),
        eligibleWorkers st priority !! k = Some r
        /\ is_leftmost_min (fun r => estimate (deref st r)) (eligibleWorkers st priority) k
        /\ schedule st c priority =
           match workers st !! k with
           | None => Throw TypeError
           | Some worker =>
               Ok (true, charged st r (name c), [PostMessage worker (request priority c)])
           end).
Proof.
  unfold schedule.
  destruct (eligibleWorkers st priority) as [|r0 rs] eqn:El; [left; auto|].
  right. cbn [length Nat.eqb].
  destruct (arrayMin _ (r0 :: rs)) as [[r k]|] eqn:E.
  - exists r, k. apply arrayMin_spec in E as [Hk Hmin].
    split; [exact Hk|]. split; [exact Hmin|].
    unfold charged, request. destruct (workers st !! k); [|reflexivity].
    destruct priority; reflexivity.
  - apply arrayMin_None in E. discriminate.
Qed.

Lemma schedule_false_iff (st : State) (c : UnionWorkerCallRequest) (priority : bool) :
  schedule st c priority = Ok (false, st, []) <-> eligibleWorkers st priority = [].
Proof.
  destruct (schedule_cases st c priority) as [[Hnil Hs]|(r & k & Hk & _ & Hs)].
  - split; auto.
  - rewrite Hs. split.
    + destruct (workers st !! k); discriminate.
    + intros Hnil. rewrite Hnil, lookup_nil in Hk. discriminate.
Qed.

(** With an eligible worker and a well-formed pool, [#schedule] accepts. *)
Lemma schedule_accepts (st : State) (c : UnionWorkerCallRequest) (priority : bool) :
  pool_ok st -> eligibleWorkers st priority <> [] ->
  exists (r : StatusRef) (k : nat) (w : Worker),
    eligibleWorkers st priority !! k = Some r
    /\ is_leftmost_min (fun r => estimate (deref st r)) (eligibleWorkers st priority) k
    /\ workers st !! k = Some w
    /\ schedule st c priority =
       Ok (true, charged st r (name c), [PostMessage w (request priority c)]).
Proof.
  intros Hpool Hne.
  destruct (schedule_cases st c priority) as [[Hnil _]|(r & k & Hk & Hmin & Hs)];
    [contradiction|].
  destruct (eligibleWorkers_lt _ _ _ _ Hk) as [Hr Hkr].
  destruct (lookup_lt_is_Some_2 (workers st) k) as [w Hw];
    [unfold pool_ok in Hpool; lia|].
  rewrite Hw in Hs. exists r, k, w. auto.
Qed.

(** [#schedule] never raises on a well-formed pool. *)
Lemma schedule_total (st : State) (c : UnionWorkerCallRequest) (priority : bool) :
  pool_ok st ->
  schedule st c priority = Ok (false, st, [])
  \/ exists r w, schedule st c priority =
       Ok (true, charged st r (name c), [PostMessage w (request priority c)]).
Proof.
  intros Hpool. destruct (eligibleWorkers st priority) eqn:E.
  - left. apply schedule_false_iff. exact E.
  - right. destruct (schedule_accepts st c priority Hpool) as (r & k & w & _ & _ & _ & Hs).
    + rewrite E. discriminate.
    + eauto.
Qed.

Lemma workerStatus_charged (st : State) (r : StatusRef) (type : string) (s : WorkerStatus) :
  workerStatus st !! r = Some s ->
  workerStatus (charged st r type) =
    <[r := mkStatus (estimate s + getEstimate st type)%Q (running s + 1)]>
      (workerStatus st).
Proof. intros H. unfold charged, deref. simpl. rewrite H. reflexivity. Qed.

Lemma pool_ok_charged (st : State) (r : StatusRef) (type : string) :
  pool_ok st -> pool_ok (charged st r type).
Proof. unfold pool_ok, charged. simpl. rewrite length_insert. auto. Qed.

Example busy_station_reached :
  after 2 capacity_1 [Message 0 setup; Call add_args]
  = Ok (busy_station,
        [PostMessage 0%nat (setup_ack 1); ResolveIsReady;
         PostMessage 0%nat (call_plain (add_job 0))]).
Proof. vm_compute. reflexivity. Qed.

Example overfull_station_reached :
  after 2 capacity_1 [Message 0 setup; Call add_args; Call add_priority_args]
  = Ok (overfull_station,
        [PostMessage 0%nat (setup_ack 1); ResolveIsReady;
         PostMessage 0%nat (call_plain (add_job 0));
         PostMessage 0%nat (call_priority (add_job 1))]).
Proof. vm_compute. reflexivity. Qed.

(** C6. A [call] with [priority] set, on a station with a worker, is
    accepted as soon as it is past the readiness gate (at once on a ready
    station), whatever the [running] counts are: the worker in the slot of
    the leftmost least [estimate] gets the job in a [call_priority] message,
    the status in that same slot is charged, and nothing goes to the global
    queue. *)
Theorem priority_call_accepted (st : State) (a : CallArgs) :
  pool_ok st -> arg_priority a = true ->
  (0 < length (workerStatus st))%nat ->
  exists (i : nat) (w : Worker) (s : WorkerStatus) (st' : State),
    call_ready st a =
      Ok (st', [PostMessage w (call_priority
                 (mkCall (jobId st) (arg_name a) (arg_data a) (arg_workgroupLength a)))])
    /\ (isReady st = true -> call st a = call_ready st a)
    /\ workers st !! i = Some w
    /\ workerStatus st !! i = Some s
    /\ (forall j s', workerStatus st !! j = Some s' ->
          (estimate s <= estimate s')%Q /\ ((j < i)%nat -> (estimate s < estimate s')%Q))
    /\ workerStatus st' =
         <[i := mkStatus (estimate s + getEstimate st (arg_name a))%Q (running s + 1)]>
           (workerStatus st)
    /\ globalQueue st' = globalQueue st
    /\ jobs st' !! jobId st = Some (jobId st).
Proof.
  intros Hpool Hprio Hne.
  unfold call, call_ready. rewrite Hprio.
  set (c := mkCall _ _ _ _).
  set (st1 := set_jobs _ _).
  destruct (schedule_accepts st1 c true) as (r & k & w & Hk & Hmin & Hw & Hs).
  - exact Hpool.
  - rewrite eligibleWorkers_priority. change (workerStatus st1) with (workerStatus st).
    destruct (workerStatus st); simpl in *; [lia|discriminate].
  - rewrite eligibleWorkers_priority in Hk, Hmin.
    change (workerStatus st1) with (workerStatus st) in Hk, Hmin.
    apply lookup_seq in Hk as [-> Hlt]. simpl in *.
    destruct (lookup_lt_is_Some_2 (workerStatus st) k Hlt) as [s Hs'].
    rewrite Hs. simpl.
    exists k, w, s. eexists. split; [reflexivity|].
    split; [intros ->; reflexivity|].
    split; [exact Hw|]. split; [exact Hs'|]. split; [|split; [|split]].
    + destruct Hmin as (m & Hm & Hle & Hlt').
      apply lookup_seq in Hm as [-> _]. simpl in *.
      assert (deref st1 k = s) as Hd by (apply deref_lookup; exact Hs').
      rewrite Hd in Hle, Hlt'.
      intros j s' Hj.
      assert (seq 0 (length (workerStatus st)) !! j = Some j) as Hseq.
      { apply lookup_seq. split; [reflexivity|]. eapply lookup_lt_Some; eauto. }
      assert (deref st1 j = s') as Hd' by (apply deref_lookup; exact Hj).
      split.
      * specialize (Hle _ _ Hseq). rewrite Hd' in Hle. exact Hle.
      * intros Hji. specialize (Hlt' _ _ Hji Hseq). rewrite Hd' in Hlt'. exact Hlt'.
    + rewrite (workerStatus_charged st1 k _ s Hs'). reflexivity.
    + reflexivity.
    + apply lookup_insert_eq.
Qed.

Lemma priority_call_accepted_witness :
  exists (i : nat) (w : Worker) (s : WorkerStatus) (st' : State),
    call_ready busy_station add_priority_args =
      Ok (st', [PostMessage w (call_priority (mkCall 1 "add" Undefined 0))])
    /\ (isReady busy_station = true ->
        call busy_station add_priority_args = call_ready busy_station add_priority_args)
    /\ workers busy_station !! i = Some w
    /\ workerStatus busy_station !! i = Some s
    /\ (forall j s', workerStatus busy_station !! j = Some s' ->
          (estimate s <= estimate s')%Q /\ ((j < i)%nat -> (estimate s < estimate s')%Q))
    /\ workerStatus st' =
         <[i := mkStatus (estimate s + getEstimate busy_station "add")%Q (running s + 1)]>
           (workerStatus busy_station)
    /\ globalQueue st' = globalQueue busy_station
    /\ jobs st' !! jobId busy_station = Some (jobId busy_station).
Proof.
  apply (priority_call_accepted busy_station add_priority_args).
  - reflexivity.
  - reflexivity.
  - simpl. lia.
Defined.

(** ** Rejection of non-priority jobs *)

(** C5, as stated, fails: on a station that is reached by one plain and one
    priority call, a non-priority admission attempt fails although the
    worker's [running] count (2) does not equal [localQueueSize] (1). *)
Lemma rejected_without_equal_counts :
  ~ (schedule overfull_station (add_job 2) false = Ok (false, overfull_station, [])
     <-> Forall (fun s => running s = localQueueSize overfull_station)
           (workerStatus overfull_station)).
Proof.
  intros [H _].
  assert (schedule overfull_station (add_job 2) false = Ok (false, overfull_station, []))
    as Hs by (vm_compute; reflexivity).
  apply H in Hs. inversion Hs as [|? ? Heq _]. simpl in Heq. discriminate.
Qed.

(** C5, amended. A non-priority admission attempt fails exactly when every
    worker's [running] count is at least [localQueueSize]; a non-priority
    [call] on a ready station then appends the job at the tail of the global
    queue and charges no worker, and otherwise posts the job and leaves the
    queue as it is. *)
Theorem nonpriority_rejected_iff (st : State) (a : CallArgs) :
  pool_ok st -> isReady st = true -> arg_priority a = false ->
  let c := mkCall (jobId st) (arg_name a) (arg_data a) (arg_workgroupLength a) in
  let full := Forall (fun s => localQueueSize st <= running s) (workerStatus st) in
  (forall c', schedule st c' false = Ok (false, st, []) <-> full)
  /\ exists (st' : State) (eff : list Effect),
       call st a = Ok (st', eff)
       /\ ((full /\ eff = [] /\ globalQueue st' = globalQueue st ++ [c]
            /\ workerStatus st' = workerStatus st)
           \/ (~ full /\ globalQueue st' = globalQueue st
               /\ exists w, eff = [PostMessage w (call_plain c)])).
Proof.
  intros Hpool Hready Hprio c full. split.
  - intros c'. rewrite schedule_false_iff. apply eligibleWorkers_nil.
  - unfold call, call_ready. rewrite Hready, Hprio. fold c.
    set (st1 := set_jobs _ _).
    assert (eligibleWorkers st1 false = [] <-> full) as Hfull
      by (apply (eligibleWorkers_nil st1)).
    destruct (eligibleWorkers st1 false) as [|r0 rs] eqn:E.
    + assert (schedule st1 c false = Ok (false, st1, [])) as ->
        by (apply schedule_false_iff; exact E).
      simpl. eexists; eexists. split; [reflexivity|]. left.
      split; [apply Hfull; reflexivity|]. auto.
    + destruct (schedule_accepts st1 c false) as (r & k & w & _ & _ & _ & ->).
      * exact Hpool.
      * rewrite E. discriminate.
      * simpl. eexists; eexists. split; [reflexivity|]. right.
        split; [intros Hf; apply Hfull in Hf; discriminate|].
        split; [reflexivity|]. exists w. reflexivity.
Qed.

Lemma nonpriority_rejected_iff_witness :
  let st := overfull_station in
  let c := mkCall 2 "add" Undefined 0 in
  let full := Forall (fun s => localQueueSize st <= running s) (workerStatus st) in
  (forall c', schedule st c' false = Ok (false, st, []) <-> full)
  /\ exists (st' : State) (eff : list Effect),
       call st add_args = Ok (st', eff)
       /\ ((full /\ eff = [] /\ globalQueue st' = globalQueue st ++ [c]
            /\ workerStatus st' = workerStatus st)
           \/ (~ full /\ globalQueue st' = globalQueue st
               /\ exists w, eff = [PostMessage w (call_plain c)])).
Proof.
  apply (nonpriority_rejected_iff overfull_station add_args).
  - reflexivity.
  - reflexivity.
  - reflexivity.
Defined.

(** ** The worker that is charged and the worker that is sent the job *)

Example one_busy_station_reached :
  after 3 capacity_1 [Message 0 setup; Message 1 setup; Call add_args]
  = Ok (one_busy_station,
        [PostMessage 0%nat (setup_ack 1); PostMessage 1%nat (setup_ack 1);
         ResolveIsReady; PostMessage 0%nat (call_plain (add_job 0))]).
Proof. vm_compute. reflexivity. Qed.

(** C1 at a failing input. With two workers, capacity 1 and the first worker
    busy, the only eligible worker is the second one (slot 1): its status is
    charged, but the job is posted to the worker in slot 0, the position of
    the chosen status in the filtered array. *)
Theorem job_posted_to_ineligible_worker :
  eligibleWorkers one_busy_station false = [1%nat]
  /\ schedule one_busy_station (add_job 1) false
     = Ok (true, charged one_busy_station 1%nat "add",
           [PostMessage 0%nat (call_plain (add_job 1))])
  /\ workers one_busy_station = [0%nat; 1%nat]
  /\ workerStatus one_busy_station = [mkStatus (10 # 1) 1; mkStatus 0 0]
  /\ workerStatus (charged one_busy_station 1%nat "add")
     = [mkStatus (10 # 1) 1; mkStatus (10 # 1) 1]
  /\ exists st',
       call one_busy_station add_args
       = Ok (st', [PostMessage 0%nat (call_plain (add_job 1))])
       /\ workerStatus st' = [mkStatus (10 # 1) 1; mkStatus (10 # 1) 1].
Proof.
  repeat split; try (vm_compute; reflexivity).
  eexists. split; vm_compute; reflexivity.
Qed.

(** ** Reflow *)

Example queued_station_reached :
  after 2 capacity_1
    [Message 0 setup; Call add_args; Call add_args; Call add_args;
     Message 0 (done_ 0 "add" (Num 15) (4 # 1))]
  = Ok (queued_station,
        [PostMessage 0%nat (setup_ack 1); ResolveIsReady;
         PostMessage 0%nat (call_plain (add_job 0)); Resolve 0 (Num 15)]).
Proof. vm_compute. reflexivity. Qed.

Lemma schedule_true_inv (st st' : State) (c : UnionWorkerCallRequest)
    (priority : bool) (eff : list Effect) :
  schedule st c priority = Ok (true, st', eff) ->
  exists (r : StatusRef) (k : nat) (w : Worker),
    eligibleWorkers st priority !! k = Some r
    /\ workers st !! k = Some w
    /\ st' = charged st r (name c)
    /\ eff = [PostMessage w (request priority c)].
Proof.
  intros H.
  destruct (schedule_cases st c priority) as [[_ Hs]|(r & k & Hk & _ & Hs)];
    rewrite Hs in H; [discriminate|].
  destruct (workers st !! k) as [w|] eqn:Hw; [|discriminate].
  injection H as <- <-. exists r, k, w. auto.
Qed.

Lemma set_globalQueue_same (st : State) : set_globalQueue (globalQueue st) st = st.
Proof. destruct st. reflexivity. Qed.

Lemma accepts_globalQueue (st st' : State) (jobs : list UnionWorkerCallRequest)
    (eff : list Effect) :
  accepts st jobs st' eff -> globalQueue st' = globalQueue st.
Proof.
  induction 1 as [|st st' st'' job jobs eff eff' Hs _ IH]; [reflexivity|].
  apply schedule_true_inv in Hs as (r & k & w & _ & _ & -> & _).
  rewrite IH. reflexivity.
Qed.

(** Every accepted job is posted once, as a plain [call], in queue order. *)
Lemma accepts_effects (st st' : State) (jobs : list UnionWorkerCallRequest)
    (eff : list Effect) :
  accepts st jobs st' eff ->
  Forall2 (fun job e => exists w, e = PostMessage w (call_plain job)) jobs eff.
Proof.
  induction 1 as [|st st' st'' job jobs eff eff' Hs _ IH]; [constructor|].
  apply schedule_true_inv in Hs as (r & k & w & _ & _ & _ & ->).
  simpl. constructor; [exists w; reflexivity|exact IH].
Qed.

Lemma reflow_loop_spec (rest : list UnionWorkerCallRequest) :
  forall (st : State) (i : nat), pool_ok st ->
  exists (k : nat) (st1 : State) (eff : list Effect),
    reflow_loop st rest i = Ok ((i + k)%nat, st1, eff)
    /\ (k <= length rest)%nat
    /\ accepts st (take k rest) st1 eff
    /\ (forall job, rest !! k = Some job -> schedule st1 job false = Ok (false, st1, [])).
Proof.
  induction rest as [|job rest IH]; intros st i Hpool; simpl.
  - exists 0%nat, st, []. rewrite Nat.add_0_r. repeat split; try constructor.
    intros job. rewrite lookup_nil. discriminate.
  - destruct (schedule_total st job false Hpool) as [Hs|(r & w & Hs)]; rewrite Hs; simpl.
    + exists 0%nat, st, []. rewrite Nat.add_0_r. repeat split; try constructor; try lia.
      intros job' [= <-]. exact Hs.
    + destruct (IH (charged st r (name job)) (S i) (pool_ok_charged _ _ _ Hpool))
        as (k & st1 & eff & Hloop & Hk & Hadm & Hstop).
      rewrite Hloop. simpl.
      exists (S k), st1, (PostMessage w (request false job) :: eff).
      replace (i + S k)%nat with (S i + k)%nat by lia.
      repeat split; try lia.
      * simpl. apply (accepts_cons st (charged st r (name job)) st1 job (take k rest)
                        [PostMessage w (request false job)] eff Hs Hadm).
      * exact Hstop.
Qed.

(** C4. A reflow pass accepts the jobs of the global queue from the head, each
    with the non-priority [#schedule] and a plain [call] message, and stops at
    the first job that is refused (or at the end); the accepted jobs are cut
    off the head and the rest of the queue stays as it was. *)
Theorem reflow_head_of_line (st : State) :
  pool_ok st ->
  exists (k : nat) (st1 : State) (eff : list Effect),
    reflow_fn st = Ok (set_globalQueue (drop k (globalQueue st)) st1, eff)
    /\ (k <= length (globalQueue st))%nat
    /\ accepts st (take k (globalQueue st)) st1 eff
    /\ Forall2 (fun job e => exists w, e = PostMessage w (call_plain job))
         (take k (globalQueue st)) eff
    /\ (forall job, globalQueue st !! k = Some job ->
          schedule st1 job false = Ok (false, st1, [])).
Proof.
  intros Hpool. unfold reflow_fn.
  destruct (globalQueue st) as [|job q] eqn:Hq.
  - exists 0%nat, st, []. simpl.
    replace (set_globalQueue [] st) with st
      by (rewrite <- Hq; symmetry; apply set_globalQueue_same).
    repeat split; try constructor.
    intros job. discriminate.
  - destruct (reflow_loop_spec (job :: q) st 0 Hpool)
      as (k & st1 & eff & Hloop & Hk & Hadm & Hstop).
    rewrite Hloop. simpl bind.
    rewrite (accepts_globalQueue _ _ _ _ Hadm), Hq.
    exists k, st1, eff. repeat split; auto.
    eapply accepts_effects; eauto.
Qed.

Lemma reflow_head_of_line_witness :
  exists (k : nat) (st1 : State) (eff : list Effect),
    reflow_fn queued_station
    = Ok (set_globalQueue (drop k (globalQueue queued_station)) st1, eff)
    /\ (k <= length (globalQueue queued_station))%nat
    /\ accepts queued_station (take k (globalQueue queued_station)) st1 eff
    /\ Forall2 (fun job e => exists w, e = PostMessage w (call_plain job))
         (take k (globalQueue queued_station)) eff
    /\ (forall job, globalQueue queued_station !! k = Some job ->
          schedule st1 job false = Ok (false, st1, [])).
Proof.
  apply (reflow_head_of_line queued_station).
  reflexivity.
Defined.

(** The pass on [queued_station]: the head job is accepted, the second one
    is refused and stays. *)
Example reflow_queued_station :
  exists st', reflow_fn queued_station = Ok (st', [PostMessage 0%nat (call_plain (add_job 1))])
    /\ globalQueue st' = [add_job 2]
    /\ workerStatus st' = [mkStatus (10 # 1) 1].
Proof. eexists. split; [vm_compute; reflexivity|]. split; reflexivity. Qed.

(** ** Completions *)

(** A [done] message for a pending job: the job leaves the map, its future
    is resolved once with the result, and the status of the reporting worker
    goes down by one job and by the current estimate of the job's type. *)
Lemma done_matching (st : State) (i : nat) (s : WorkerStatus) (c : Completer)
    (id : Z) (type : string) (result : any) (dt : Q) :
  jobs st !! id = Some c -> workerStatus st !! i = Some s ->
  exists st',
    onMessage st i (done_ id type result dt) = Ok (st', [Resolve c result])
    /\ jobs st' = delete id (jobs st)
    /\ workerStatus st' =
         <[i := mkStatus (estimate s - getEstimate st type)%Q (running s - 1)]>
           (workerStatus st)
    /\ pendingEstimates st' = pendingEstimates st ++ [(type, dt)].
Proof.
  intros Hj Hs. unfold onMessage. rewrite Hj. simpl. rewrite Hs.
  eexists. split; [reflexivity|].
  unfold updateEstimates, reflow.
  repeat match goal with |- context [if ?b then _ else _] => destruct b end;
    simpl; auto.
Qed.

(** A [done] message whose id is not pending resolves nothing and leaves the
    map alone, but the status of the reporting worker is changed all the
    same, and the sample is recorded. *)
Lemma done_unmatched (st : State) (i : nat) (s : WorkerStatus)
    (id : Z) (type : string) (result : any) (dt : Q) :
  jobs st !! id = None -> workerStatus st !! i = Some s ->
  exists st',
    onMessage st i (done_ id type result dt) = Ok (st', [])
    /\ jobs st' = jobs st
    /\ workerStatus st' =
         <[i := mkStatus (estimate s - getEstimate st type)%Q (running s - 1)]>
           (workerStatus st)
    /\ pendingEstimates st' = pendingEstimates st ++ [(type, dt)].
Proof.
  intros Hj Hs. unfold onMessage. rewrite Hj. simpl. rewrite Hs.
  eexists. split; [reflexivity|].
  unfold updateEstimates, reflow.
  repeat match goal with |- context [if ?b then _ else _] => destruct b end;
    simpl; auto.
Qed.

(** C2 at a failing input. On [busy_station] the completion of job 0 is
    processed as the claim says: the future is resolved once and [running]
    goes from 1 to 0. The same [done] message a second time resolves nothing,
    but the state changes: [running] becomes -1, [estimate] becomes -10 and
    a second sample is recorded. *)
Theorem duplicate_done_changes_status :
  exists st1 st2,
    onMessage busy_station 0 (done_ 0 "add" (Num 15) (4 # 1))
    = Ok (st1, [Resolve 0 (Num 15)])
    /\ jobs st1 !! 0 = None
    /\ workerStatus st1 = [mkStatus 0 0]
    /\ onMessage st1 0 (done_ 0 "add" (Num 15) (4 # 1)) = Ok (st2, [])
    /\ workerStatus st2 = [mkStatus (-10 # 1) (-1)]
    /\ pendingEstimates st2 = [("add", 4 # 1); ("add", 4 # 1)]%Q
    /\ st2 <> st1.
Proof.
  eexists. eexists.
  split; [vm_compute; reflexivity|].
  split; [vm_compute; reflexivity|].
  split; [vm_compute; reflexivity|].
  split; [vm_compute; reflexivity|].
  split; [vm_compute; reflexivity|].
  split; [vm_compute; reflexivity|].
  intros H. apply (f_equal workerStatus) in H. vm_compute in H. discriminate.
Qed.

(** ** The backlog bookkeeping *)




(** ** Estimate recomputation *)

Lemma durations_of_cons (type : string) (sample : string * Q) (buffer : list (string * Q)) :
  durations_of type (sample :: buffer) =
    if decide (fst sample = type) then snd sample :: durations_of type buffer
    else durations_of type buffer.
Proof.
  unfold durations_of. rewrite filter_cons. destruct (decide (fst sample = type)); reflexivity.
Qed.

Lemma updateEstimates_iter_other (est : gmap string Entry.t) (type' type : string) (dt : Q) :
  type' <> type -> updateEstimates_iter est (type', dt) !! type = est !! type.
Proof.
  intros Hne. unfold updateEstimates_iter.
  destruct (est !! type'); apply lookup_insert_ne; exact Hne.
Qed.

(** The loop of [#updateEstimates] over a buffer, for a type that has an
    entry: the sample count grows by the number of the type's samples in the
    buffer, and count times mean grows by their sum. *)
Lemma updateEstimates_loop_entry (type : string) (buffer : list (string * Q)) :
  forall (est : gmap string Entry.t) (e : Entry.t),
    est !! type = Some e -> 0 < Entry.length e ->
    exists e',
      fold_left updateEstimates_iter buffer est !! type = Some e'
      /\ Entry.length e' = Entry.length e + Z.of_nat (length (durations_of type buffer))
      /\ (Entry.mean e' * inject_Z (Entry.length e')
          == Entry.mean e * inject_Z (Entry.length e) + Qsum (durations_of type buffer))%Q.
Proof.
  induction buffer as [|[type' dt] buffer IH]; intros est e He Hpos.
  - exists e. simpl. split; [exact He|]. split; [lia|ring].
  - cbn [fold_left]. rewrite durations_of_cons. cbn [fst snd].
    destruct (decide (type' = type)) as [->|Hne].
    + set (n := Entry.length e + 1).
      set (e1 := Entry.mk n ((Entry.mean e * inject_Z (n - 1) + dt) / inject_Z n)%Q).
      assert (updateEstimates_iter est (type, dt) = <[type := e1]> est) as ->
        by (unfold updateEstimates_iter; rewrite He; reflexivity).
      destruct (IH (<[type := e1]> est) e1) as (e' & Hf & Hlen & Hmean).
      * apply lookup_insert_eq.
      * simpl. lia.
      * exists e'. split; [exact Hf|]. split.
        -- rewrite Hlen. simpl length. subst n. simpl. lia.
        -- rewrite Hmean. simpl Qsum. simpl Entry.mean. simpl Entry.length.
           replace (n - 1) with (Entry.length e) by (subst n; lia).
           assert (~ inject_Z n == 0)%Q as Hn.
           { change 0%Q with (inject_Z 0). rewrite inject_Z_injective. subst n. lia. }
           field. exact Hn.
    + destruct (IH (updateEstimates_iter est (type', dt)) e) as (e' & Hf & Hlen & Hmean).
      * rewrite updateEstimates_iter_other by exact Hne. exact He.
      * exact Hpos.
      * exists e'. auto.
Qed.

(** One run of the loop over a buffer, for a type without an entry: the
    mean is the arithmetic mean of the type's samples in the buffer. *)
Lemma updateEstimates_loop_mean (type : string) (buffer : list (string * Q)) :
  forall (est : gmap string Entry.t),
    est !! type = None -> durations_of type buffer <> [] ->
    exists e,
      fold_left updateEstimates_iter buffer est !! type = Some e
      /\ Entry.length e = Z.of_nat (length (durations_of type buffer))
      /\ (Entry.mean e
          == Qsum (durations_of type buffer)
             / inject_Z (Z.of_nat (length (durations_of type buffer))))%Q.
Proof.
  induction buffer as [|[type' dt] buffer IH]; intros est He Hne.
  - contradiction.
  - cbn [fold_left]. rewrite durations_of_cons in *. cbn [fst snd] in *.
    destruct (decide (type' = type)) as [->|Hneq].
    + assert (updateEstimates_iter est (type, dt) = <[type := Entry.mk 1 dt]> est) as ->
        by (unfold updateEstimates_iter; rewrite He; reflexivity).
      destruct (updateEstimates_loop_entry type buffer (<[type := Entry.mk 1 dt]> est)
                  (Entry.mk 1 dt)) as (e & Hf & Hlen & Hmean).
      * apply lookup_insert_eq.
      * simpl. lia.
      * simpl in Hlen, Hmean. exists e. split; [exact Hf|]. split.
        -- rewrite Hlen. simpl length. lia.
        -- simpl length. simpl Qsum.
           replace (Z.of_nat (S (length (durations_of type buffer))))
             with (Entry.length e) by (rewrite Hlen; lia).
           assert (~ inject_Z (Entry.length e) == 0)%Q as Hn.
           { change 0%Q with (inject_Z 0). rewrite inject_Z_injective. lia. }
           apply Qmult_inj_r with (inject_Z (Entry.length e)); [exact Hn|].
           rewrite Hmean. field. exact Hn.
    + apply IH; [|exact Hne].
      rewrite updateEstimates_iter_other by exact Hneq. exact He.
Qed.

(** ** What admission leaves alone *)

Lemma bind_Ok {A B : Type} (m : Result A) (k : A -> Result B) (b : B) :
  bind m k = Ok b -> exists a, m = Ok a /\ k a = Ok b.
Proof. destruct m as [a|e]; simpl; [eauto|discriminate]. Qed.

Ltac inv_bind H :=
  let a := fresh "a" in
  let Hm := fresh "Hm" in
  apply bind_Ok in H as (a & Hm & H).

Lemma kept_refl (st : State) : kept_by_admission st st.
Proof. unfold kept_by_admission. tauto. Qed.

Lemma kept_trans (st1 st2 st3 : State) :
  kept_by_admission st1 st2 -> kept_by_admission st2 st3 -> kept_by_admission st1 st3.
Proof.
  unfold kept_by_admission.
  intros (?&?&?&?&?&?&?&?&?&?) (?&?&?&?&?&?&?&?&?&?).
  repeat split; congruence.
Qed.

Lemma schedule_kept (st st' : State) (c : UnionWorkerCallRequest) (priority b : bool)
    (eff : list Effect) :
  schedule st c priority = Ok (b, st', eff) -> kept_by_admission st st'.
Proof.
  intros H.
  destruct (schedule_cases st c priority) as [[_ Hs]|(r & k & _ & _ & Hs)];
    rewrite Hs in H.
  - injection H as _ <- _. apply kept_refl.
  - destruct (workers st !! k); [|discriminate].
    injection H as _ <- _. unfold kept_by_admission, charged. simpl. tauto.
Qed.

Lemma call_ready_kept (st st' : State) (a : CallArgs) (eff : list Effect) :
  call_ready st a = Ok (st', eff) -> kept_by_admission st st'.
Proof.
  unfold call_ready. intros H. inv_bind H. destruct a0 as [[b st1] eff1].
  apply schedule_kept in Hm.
  eapply kept_trans; [|eapply kept_trans; [exact Hm|]].
  - unfold kept_by_admission. simpl. tauto.
  - destruct b; injection H as <- _; [apply kept_refl|].
    unfold kept_by_admission. simpl. tauto.
Qed.

Lemma resume_all_kept (suspended : list CallArgs) :
  forall (st st' : State) (eff : list Effect),
    resume_all st suspended = Ok (st', eff) -> kept_by_admission st st'.
Proof.
  induction suspended as [|a suspended IH]; intros st st' eff H; simpl in H.
  - injection H as <- _. apply kept_refl.
  - inv_bind H. destruct a0 as [st1 eff1]. inv_bind H. destruct a0 as [st2 eff2].
    injection H as <- _.
    eapply kept_trans; [eapply call_ready_kept; eauto|eapply IH; eauto].
Qed.

Lemma reflow_loop_kept (rest : list UnionWorkerCallRequest) :
  forall (st st' : State) (i k : nat) (eff : list Effect),
    reflow_loop st rest i = Ok (k, st', eff) -> kept_by_admission st st'.
Proof.
  induction rest as [|job rest IH]; intros st st' i k eff H; simpl in H.
  - injection H as _ <- _. apply kept_refl.
  - inv_bind H. destruct a as [[b st1] eff1]. apply schedule_kept in Hm.
    destruct b.
    + inv_bind H. destruct a as [[k' st2] eff2]. injection H as _ <- _.
      eapply kept_trans; [exact Hm|eapply IH; eauto].
    + injection H as _ <- _. exact Hm.
Qed.

Lemma reflow_fn_kept (st st' : State) (eff : list Effect) :
  reflow_fn st = Ok (st', eff) -> kept_by_admission st st'.
Proof.
  unfold reflow_fn. destruct (globalQueue st).
  - intros [= <- _]. apply kept_refl.
  - intros H. inv_bind H. destruct a as [[k st1] eff1]. injection H as <- _.
    apply reflow_loop_kept in Hm.
    eapply kept_trans; [exact Hm|]. unfold kept_by_admission. simpl. tauto.
Qed.

Lemma microtasks_kept (st st' : State) (eff : list Effect) :
  microtasks st = Ok (st', eff) ->
  pendingEstimates st' = pendingEstimates st
  /\ workers st' = workers st
  /\ readyCount st' = readyCount st
  /\ isReady st' = isReady st.
Proof.
  unfold microtasks. destruct (isReady st) eqn:E.
  - intros H. apply resume_all_kept in H.
    destruct H as (_&_&?&?&?&_&_&?&_). simpl in *. repeat split; congruence.
  - intros [= <- _]. auto.
Qed.

(** ** The buffer of samples *)

Lemma onMessage_done_Ok (st st' : State) (i : nat) (id : Z) (type : string)
    (result : any) (dt : Q) (eff : list Effect) :
  onMessage st i (done_ id type result dt) = Ok (st', eff) ->
  exists s,
    workerStatus st !! i = Some s
    /\ workerStatus st' =
         <[i := mkStatus (estimate s - getEstimate st type)%Q (running s - 1)]>
           (workerStatus st)
    /\ pendingEstimates st' = pendingEstimates st ++ [(type, dt)]
    /\ jobs st' = delete id (jobs st)
    /\ eff = match jobs st !! id with
             | Some c => [Resolve c result]
             | None => []
             end.
Proof.
  intros H.
  destruct (workerStatus st !! i) as [s|] eqn:Hs.
  - exists s. split; [reflexivity|].
    destruct (jobs st !! id) as [c|] eqn:Hj.
    + destruct (done_matching st i s c id type result dt Hj Hs) as (st1 & H1 & ? & ? & ?).
      rewrite H1 in H. injection H as <- <-. auto.
    + destruct (done_unmatched st i s id type result dt Hj Hs) as (st1 & H1 & Hjobs & ? & ?).
      rewrite H1 in H. injection H as <- <-.
      rewrite Hjobs, delete_id by exact Hj. auto.
  - exfalso. unfold onMessage in H.
    destruct (jobs st !! id); simpl in H; rewrite Hs in H; discriminate.
Qed.

Lemma task_pendingEstimates (st st' : State) (ev : Event) (eff : list Effect) :
  task st ev = Ok (st', eff) ->
  exists new, pendingEstimates st' = pendingEstimates st ++ new.
Proof.
  destruct ev as [i [|id type result dt]|a| |]; simpl; intros H.
  - destruct (workers st !! i); [|discriminate].
    exists []. rewrite app_nil_r.
    destruct (_ =? _); injection H as <- _; reflexivity.
  - apply onMessage_done_Ok in H as (s & _ & _ & Hp & _). eauto.
  - exists []. rewrite app_nil_r. unfold call in H. destruct (isReady st).
    + apply call_ready_kept in H. apply H.
    + injection H as <- _. reflexivity.
  - exists []. rewrite app_nil_r.
    destruct (updateEstimates_scheduled st); injection H as <- _; reflexivity.
  - exists []. rewrite app_nil_r. destruct (reflow_scheduled st).
    + apply reflow_fn_kept in H. apply H.
    + injection H as <- _. reflexivity.
Qed.

Lemma step_pendingEstimates (st st' : State) (ev : Event) (eff : list Effect) :
  step st ev = Ok (st', eff) ->
  exists new, pendingEstimates st' = pendingEstimates st ++ new.
Proof.
  unfold step. intros H. inv_bind H. destruct a as [st1 eff1].
  inv_bind H. destruct a as [st2 eff2]. injection H as <- _.
  apply task_pendingEstimates in Hm as [new Hnew].
  apply microtasks_kept in Hm0 as [Hp _].
  exists new. congruence.
Qed.

Lemma run_pendingEstimates (evs : list Event) :
  forall (st st' : State) (eff : list Effect),
    run st evs = Ok (st', eff) ->
    exists new, pendingEstimates st' = pendingEstimates st ++ new.
Proof.
  induction evs as [|ev evs IH]; intros st st' eff H; simpl in H.
  - injection H as <- _. exists []. rewrite app_nil_r. reflexivity.
  - inv_bind H. destruct a as [st1 eff1]. inv_bind H. destruct a as [st2 eff2].
    injection H as <- _.
    apply step_pendingEstimates in Hm as [new1 H1].
    apply IH in Hm0 as [new2 H2].
    exists (new1 ++ new2). rewrite H2, H1, app_assoc. reflexivity.
Qed.

(** C10. Whatever events are processed, runs of the estimate recomputation
    among them, the buffer of samples keeps all it held and only grows at the
    tail; a run of the recomputation leaves the buffer as it is and applies
    every sample in it to the table, the old ones again before the new ones:
    the sample count of a type that has an entry grows by the number of the
    type's samples in the whole buffer. *)
Theorem pendingEstimates_never_consumed (st st' : State) (evs : list Event)
    (eff : list Effect) :
  run st evs = Ok (st', eff) ->
  exists new : list (string * Q),
    pendingEstimates st' = pendingEstimates st ++ new
    /\ pendingEstimates (idle_updateEstimates st') = pendingEstimates st ++ new
    /\ estimates (idle_updateEstimates st') =
         fold_left updateEstimates_iter new
           (fold_left updateEstimates_iter (pendingEstimates st) (estimates st'))
    /\ (forall type e, estimates st' !! type = Some e -> 0 < Entry.length e ->
          exists e', estimates (idle_updateEstimates st') !! type = Some e'
            /\ Entry.length e' =
                 Entry.length e
                 + Z.of_nat (length (durations_of type (pendingEstimates st ++ new)))).
Proof.
  intros H. apply run_pendingEstimates in H as [new Hnew].
  exists new. split; [exact Hnew|].
  assert (estimates (idle_updateEstimates st') =
          fold_left updateEstimates_iter (pendingEstimates st ++ new) (estimates st'))
    as Hest by (rewrite <- Hnew; reflexivity).
  split; [exact Hnew|]. split.
  - rewrite Hest. apply fold_left_app.
  - intros type e He Hpos. rewrite Hest.
    destruct (updateEstimates_loop_entry type (pendingEstimates st ++ new) _ e He Hpos)
      as (e' & Hf & Hlen & _).
    exists e'. auto.
Qed.

Lemma pendingEstimates_never_consumed_witness :
  exists (st' : State) (eff : list Effect),
    run (idle_updateEstimates queued_station)
      [IdleReflow; Message 0 (done_ 1 "add" (Num 15) (6 # 1)); IdleUpdateEstimates]
    = Ok (st', eff)
    /\ exists new : list (string * Q),
         pendingEstimates st' = pendingEstimates (idle_updateEstimates queued_station) ++ new
         /\ pendingEstimates (idle_updateEstimates st')
            = pendingEstimates (idle_updateEstimates queued_station) ++ new
         /\ estimates (idle_updateEstimates st') =
              fold_left updateEstimates_iter new
                (fold_left updateEstimates_iter
                   (pendingEstimates (idle_updateEstimates queued_station)) (estimates st'))
         /\ (forall type e, estimates st' !! type = Some e -> 0 < Entry.length e ->
               exists e', estimates (idle_updateEstimates st') !! type = Some e'
                 /\ Entry.length e' =
                      Entry.length e
                      + Z.of_nat (length (durations_of type
                          (pendingEstimates (idle_updateEstimates queued_station) ++ new)))).
Proof.
  eexists. eexists. split.
  - vm_compute. reflexivity.
  - eapply (pendingEstimates_never_consumed (idle_updateEstimates queued_station) _
              [IdleReflow; Message 0 (done_ 1 "add" (Num 15) (6 # 1)); IdleUpdateEstimates]).
    vm_compute. reflexivity.
Defined.

(** ** The mean over several runs of the recomputation *)

(** When both completions are recorded before the recomputation runs once,
    the mean is the arithmetic mean. *)
Example mean_after_one_run :
  exists st eff e,
    after 2 no_options
      [Message 0 setup; Call add_args; Call add_args;
       Message 0 (done_ 0 "add" (Num 15) (4 # 1));
       Message 0 (done_ 1 "add" (Num 15) (6 # 1)); IdleUpdateEstimates]
    = Ok (st, eff)
    /\ estimates st !! "add" = Some e
    /\ Entry.length e = 2
    /\ (Entry.mean e == (4 + 6) / 2)%Q.
Proof.
  do 3 eexists. split; [vm_compute; reflexivity|].
  split; [vm_compute; reflexivity|]. split; vm_compute; reflexivity.
Qed.

(** C3 at a failing input. The type "add" has no seed entry; a completion of
    4 ms is recorded and the recomputation runs, then a completion of 6 ms is
    recorded and the recomputation runs again. The second run applies the
    first sample once more: the entry counts three samples and its mean is
    14/3, not (4 + 6) / 2. *)
Theorem mean_after_two_runs :
  exists st eff e,
    after 2 no_options
      [Message 0 setup; Call add_args; Call add_args;
       Message 0 (done_ 0 "add" (Num 15) (4 # 1)); IdleUpdateEstimates;
       Message 0 (done_ 1 "add" (Num 15) (6 # 1)); IdleUpdateEstimates]
    = Ok (st, eff)
    /\ pendingEstimates st = [("add", 4 # 1); ("add", 6 # 1)]%Q
    /\ estimates st !! "add" = Some e
    /\ Entry.length e = 3
    /\ (Entry.mean e == 14 # 3)%Q
    /\ ~ (Entry.mean e == (4 + 6) / 2)%Q.
Proof.
  do 3 eexists. split; [vm_compute; reflexivity|].
  split; [vm_compute; reflexivity|].
  split; [vm_compute; reflexivity|].
  split; [vm_compute; reflexivity|].
  split; [vm_compute; reflexivity|].
  vm_compute. discriminate.
Qed.

(** ** Construction *)

Lemma constructor_Ok (hardwareConcurrency : Z) (url : string)
    (options : UnionStationOptions) (st : State) :
  constructor hardwareConcurrency url options = Ok st ->
  let workerCount := Z.min (hardwareConcurrency - 1) (default 4 (opt_maxWorkers options)) in
  0 <= workerCount
  /\ workers st = seq 0 (Z.to_nat workerCount)
  /\ workerStatus st = replicate (Z.to_nat workerCount) (mkStatus 0 0)
  /\ localQueueSize st = default 8 (opt_localQueueSize options)
  /\ fallbackTime st = default (10 # 1)%Q (opt_fallbackTime options)
  /\ jobId st = 0 /\ jobs st = ∅ /\ readyCount st = 0 /\ isReady st = false
  /\ awaiting st = [] /\ pendingEstimates st = [] /\ globalQueue st = []
  /\ updateEstimates_scheduled st = false /\ reflow_scheduled st = false.
Proof.
  intros H workerCount. unfold constructor, new_Array in H. fold workerCount in H.
  destruct (workerCount <? 0) eqn:E1; [discriminate|].
  destruct (2 ^ 32 - 1 <? workerCount) eqn:E2; [discriminate|].
  simpl in H. injection H as <-. simpl.
  apply Z.ltb_ge in E1. repeat split; auto.
Qed.

Lemma constructor_pool_ok (hardwareConcurrency : Z) (url : string)
    (options : UnionStationOptions) (st : State) :
  constructor hardwareConcurrency url options = Ok st -> pool_ok st.
Proof.
  intros H. apply constructor_Ok in H as (_ & Hw & Hs & _).
  unfold pool_ok. rewrite Hw, Hs, length_seq, length_replicate. reflexivity.
Qed.

(** C9, as stated, fails: with one logical processor the pool size is
    [min (1 - 1) 4 = 0], and the constructor returns a station. *)
Lemma constructor_accepts_empty_pool :
  ~ (Z.min (1 - 1) 4 <= 0 -> exists e, constructor 1 "worker.js" no_options = Throw e).
Proof.
  intros H.
  assert (Z.min (1 - 1) 4 <= 0) as Hle by (vm_compute; discriminate).
  destruct (H Hle) as [e He]. vm_compute in He. discriminate.
Qed.

(** C9, amended. The constructor has no guard of its own on the pool size.
    When [min (hardwareConcurrency - 1) maxWorkers] is zero it builds a
    station with an empty pool, whose gate is closed; only when the value is
    negative does construction fail, with the range error of [new Array]. *)
Theorem constructor_pool_size (hardwareConcurrency : Z) (url : string)
    (options : UnionStationOptions) :
  let workerCount := Z.min (hardwareConcurrency - 1) (default 4 (opt_maxWorkers options)) in
  workerCount <= 0 ->
  (workerCount = 0
   /\ exists st, constructor hardwareConcurrency url options = Ok st
        /\ workers st = [] /\ workerStatus st = [] /\ isReady st = false)
  \/ (workerCount < 0
      /\ constructor hardwareConcurrency url options = Throw RangeError).
Proof.
  intros workerCount Hle.
  destruct (Z.eq_dec workerCount 0) as [H0|Hne].
  - left. split; [exact H0|].
    unfold constructor, new_Array. fold workerCount. rewrite H0. simpl.
    eexists. split; [reflexivity|]. simpl. auto.
  - right. split; [lia|].
    unfold constructor, new_Array. fold workerCount.
    assert ((workerCount <? 0) = true) as -> by (apply Z.ltb_lt; lia).
    reflexivity.
Qed.

Lemma constructor_pool_size_witness :
  (Z.min (1 - 1) 4 = 0
   /\ exists st, constructor 1 "worker.js" no_options = Ok st
        /\ workers st = [] /\ workerStatus st = [] /\ isReady st = false)
  \/ (Z.min (1 - 1) 4 < 0
      /\ constructor 1 "worker.js" no_options = Throw RangeError).
Proof.
  apply (constructor_pool_size 1 "worker.js" no_options).
  vm_compute. discriminate.
Defined.

(** ** The readiness gate *)


















(** A [call] made before the second of two workers has sent [setup] waits;
    the second [setup] resolves the gate and the call is posted after it. *)
Example call_before_ready :
  exists st1 st2,
    after 3 capacity_1 [Call add_args; Message 0 setup]
    = Ok (st1, [PostMessage 0%nat (setup_ack 1)])
    /\ isReady st1 = false /\ awaiting st1 = [add_args] /\ jobId st1 = 0
    /\ step st1 (Message 1 setup)
       = Ok (st2, [PostMessage 1%nat (setup_ack 1); ResolveIsReady;
                   PostMessage 0%nat (call_plain (add_job 0))])
    /\ isReady st2 = true /\ awaiting st2 = [] /\ jobId st2 = 1.
Proof.
  eexists. eexists.
  split; [vm_compute; reflexivity|]. split; [reflexivity|].
  split; [reflexivity|]. split; [reflexivity|].
  split; [vm_compute; reflexivity|]. repeat split.
Qed.

(** * Further properties of the code *)

(** ** arrayMin *)

(** X1. On a non-empty array [arrayMin] returns an element with its own
    index; no element has a smaller value, and every element to its left has
    a strictly larger one (ties go to the lowest index). *)
Theorem arrayMin_leftmost_minimum {T : Type} (fn : T -> Q) (array : list T) :
  (0 < length array)%nat ->
  exists (item : T) (idx : nat),
    arrayMin fn array = Some (item, idx)
    /\ array !! idx = Some item
    /\ (forall j x, array !! j = Some x ->
          (fn item <= fn x)%Q /\ ((j < idx)%nat -> (fn item < fn x)%Q)).
Proof.
  intros Hlen.
  destruct (arrayMin fn array) as [[item idx]|] eqn:E.
  - exists item, idx. split; [reflexivity|].
    apply arrayMin_spec in E as [Hidx (m & Hm & Hle & Hlt)].
    assert (m = item) as -> by congruence.
    split; [exact Hidx|]. intros j x Hj. split; eauto.
  - apply arrayMin_None in E. subst array. simpl in Hlen. lia.
Qed.

Lemma arrayMin_leftmost_minimum_witness :
  exists (item : Q) (idx : nat),
    arrayMin (fun q => q) [3 # 1; 1 # 1; 2 # 1; 1 # 1]%Q = Some (item, idx)
    /\ [3 # 1; 1 # 1; 2 # 1; 1 # 1]%Q !! idx = Some item
    /\ (forall j x, [3 # 1; 1 # 1; 2 # 1; 1 # 1]%Q !! j = Some x ->
          (item <= x)%Q /\ ((j < idx)%nat -> (item < x)%Q)).
Proof.
  apply (arrayMin_leftmost_minimum (fun q => q) [3 # 1; 1 # 1; 2 # 1; 1 # 1]%Q).
  simpl. lia.
Defined.

(** ** Completer *)

(** X2. After any sequence of [resolve] and [reject] calls on a completer,
    [isCompleted] is true as soon as one call was made and is never reset,
    and the promise holds the outcome of the first call made while it was
    pending: later calls set the flag again but do not change the promise. *)
Theorem completer_first_call_wins (c : Completer_ts.t) (ms : list Completer_ts.Method) :
  Completer_ts.isCompleted (fold_left Completer_ts.invoke ms c)
  = Completer_ts.isCompleted c || negb (Nat.eqb (length ms) 0)
  /\ Completer_ts.promise (fold_left Completer_ts.invoke ms c)
     = match Completer_ts.promise c, ms with
       | Completer_ts.Pending, m :: _ => Completer_ts.outcome m
       | p, _ => p
       end.
Proof.
  revert c. induction ms as [|m ms IH]; intros c.
  - simpl. rewrite orb_false_r. destruct (Completer_ts.promise c); auto.
  - cbn [fold_left]. destruct (IH (Completer_ts.invoke c m)) as [Hc Hp].
    rewrite Hc, Hp. split.
    + destruct m; simpl; rewrite orb_true_r; reflexivity.
    + destruct m, (Completer_ts.promise c) eqn:E; simpl; rewrite E; simpl;
        destruct ms; reflexivity.
Qed.

(** ** debounceIdleCallback *)

Lemma debounce_run_inv {A : Type} (evs : list (debounceIdleCallback_ts.Event A)) :
  forall (d : debounceIdleCallback_ts.t A),
    (debounceIdleCallback_ts.scheduled d = false /\ debounceIdleCallback_ts.requested d = []
     \/ exists args, d = debounceIdleCallback_ts.mk true [args]) ->
    let '(d', calls) := debounceIdleCallback_ts.run d evs in
    (debounceIdleCallback_ts.scheduled d' = false /\ debounceIdleCallback_ts.requested d' = []
     \/ exists args, d' = debounceIdleCallback_ts.mk true [args])
    /\ (length calls <= debounceIdleCallback_ts.idles evs)%nat.
Proof.
  induction evs as [|[args|] evs IH]; intros d Hd; simpl.
  - split; [exact Hd|lia].
  - apply IH. unfold debounceIdleCallback_ts.debounced.
    destruct Hd as [[Hs Hr]|[a ->]]; simpl.
    + rewrite Hs, Hr. right. eauto.
    + right. eauto.
  - unfold debounceIdleCallback_ts.idle.
    destruct Hd as [[Hs Hr]|[a ->]]; simpl.
    + rewrite Hr. specialize (IH d (or_introl (conj Hs Hr))).
      destruct (debounceIdleCallback_ts.run d evs) as [d' calls].
      destruct IH as [H1 H2]. split; [exact H1|lia].
    + specialize (IH (debounceIdleCallback_ts.mk false []) (or_introl (conj eq_refl eq_refl))).
      destruct (debounceIdleCallback_ts.run _ evs) as [d' calls].
      destruct IH as [H1 H2]. split; [exact H1|simpl; lia].
Qed.

(** X3. Whatever calls and idle periods follow one another on a fresh
    debounced function: at most one idle callback is requested at any time,
    the flag [scheduled] is set exactly while one is, and [fn] has run at
    most once per idle period. *)
Theorem debounce_at_most_one_pending {A : Type} (evs : list (debounceIdleCallback_ts.Event A)) :
  let '(d, calls) := debounceIdleCallback_ts.run debounceIdleCallback_ts.new evs in
  (length (debounceIdleCallback_ts.requested d) <= 1)%nat
  /\ (debounceIdleCallback_ts.scheduled d = true
      <-> debounceIdleCallback_ts.requested d <> [])
  /\ (length calls <= debounceIdleCallback_ts.idles evs)%nat.
Proof.
  pose proof (debounce_run_inv evs debounceIdleCallback_ts.new
                (or_introl (conj eq_refl eq_refl))) as H.
  destruct (debounceIdleCallback_ts.run _ evs) as [d calls].
  destruct H as [[[Hs Hr]|[a ->]] Hc].
  - rewrite Hs, Hr. simpl. repeat split; try lia; try discriminate. congruence.
  - simpl. repeat split; try lia; try discriminate.
Qed.

(** X4. A burst of calls before the host is idle runs [fn] once, with the
    arguments of the first call of the burst (those of the other calls are
    dropped), and leaves the debounced function as new. *)
Theorem debounce_burst_runs_first {A : Type} (args : A) (more : list A) :
  debounceIdleCallback_ts.run debounceIdleCallback_ts.new
    (map debounceIdleCallback_ts.Invoke (args :: more) ++ [debounceIdleCallback_ts.Idle])
  = (debounceIdleCallback_ts.new, [args]).
Proof.
  simpl.
  change (debounceIdleCallback_ts.debounced debounceIdleCallback_ts.new args)
    with (debounceIdleCallback_ts.mk true [args]).
  induction more as [|a more IH]; [reflexivity|].
  simpl. exact IH.
Qed.

(** ** The constructor and the time snapshot *)

(** X5. When [min (hardwareConcurrency - 1) maxWorkers] is an array length,
    the constructor builds that many workers, never more than
    [hardwareConcurrency - 1] nor than [maxWorkers] (default 4), each with
    a zero status; the capacity defaults to 8 and the fallback time to 10;
    the gate is closed and nothing is pending or queued. *)
Theorem constructor_builds_pool (hardwareConcurrency : Z) (url : string)
    (options : UnionStationOptions) :
  0 <= Z.min (hardwareConcurrency - 1) (default 4 (opt_maxWorkers options)) <= 2 ^ 32 - 1 ->
  exists st,
    constructor hardwareConcurrency url options = Ok st
    /\ Z.of_nat (length (workers st))
       = Z.min (hardwareConcurrency - 1) (default 4 (opt_maxWorkers options))
    /\ Z.of_nat (length (workers st)) <= hardwareConcurrency - 1
    /\ Z.of_nat (length (workers st)) <= default 4 (opt_maxWorkers options)
    /\ length (workerStatus st) = length (workers st)
    /\ Forall (fun s => s = mkStatus 0 0) (workerStatus st)
    /\ localQueueSize st = default 8 (opt_localQueueSize options)
    /\ fallbackTime st = default (10 # 1)%Q (opt_fallbackTime options)
    /\ isReady st = false /\ jobs st = ∅ /\ globalQueue st = [].
Proof.
  intros Hrange.
  set (workerCount := Z.min _ _) in *.
  assert (exists st, constructor hardwareConcurrency url options = Ok st) as [st Hst].
  { unfold constructor, new_Array. fold workerCount.
    assert ((workerCount <? 0) = false) as -> by (apply Z.ltb_ge; lia).
    assert ((2 ^ 32 - 1 <? workerCount) = false) as -> by (apply Z.ltb_ge; lia).
    simpl. eauto. }
  exists st. split; [exact Hst|].
  apply constructor_Ok in Hst
    as (_ & Hw & Hs & Hq & Hf & _ & Hjobs & _ & Hr & _ & _ & Hgq & _).
  fold workerCount in Hw, Hs.
  rewrite Hw, Hs, length_seq, length_replicate.
  assert (Z.of_nat (Z.to_nat workerCount) = workerCount) as -> by lia.
  repeat split; auto; try (subst workerCount; lia).
  apply Forall_forall. intros s Hin. apply elem_of_replicate in Hin as [-> _]. reflexivity.
Qed.

Lemma constructor_builds_pool_witness :
  exists st,
    constructor 3 "worker.js" no_options = Ok st
    /\ Z.of_nat (length (workers st)) = Z.min (3 - 1) (default 4 (opt_maxWorkers no_options))
    /\ Z.of_nat (length (workers st)) <= 3 - 1
    /\ Z.of_nat (length (workers st)) <= default 4 (opt_maxWorkers no_options)
    /\ length (workerStatus st) = length (workers st)
    /\ Forall (fun s => s = mkStatus 0 0) (workerStatus st)
    /\ localQueueSize st = default 8 (opt_localQueueSize no_options)
    /\ fallbackTime st = default (10 # 1)%Q (opt_fallbackTime no_options)
    /\ isReady st = false /\ jobs st = ∅ /\ globalQueue st = [].
Proof.
  apply (constructor_builds_pool 3 "worker.js" no_options).
  vm_compute. split; discriminate.
Defined.








(** ** One run of the estimate recomputation *)

(** X8. One run of the recomputation, for a type that has an entry of [k]
    samples and mean [m] (a seed from a snapshot is an entry of one sample):
    the new count is [k] plus the number of the type's samples in the buffer
    and the new mean is [(m * k + sum of the samples) / new count]. *)
Theorem recomputation_weighs_entry (st : State) (type : string) (e : Entry.t) :
  estimates st !! type = Some e -> 0 < Entry.length e ->
  exists e',
    estimates (idle_updateEstimates st) !! type = Some e'
    /\ Entry.length e'
       = Entry.length e + Z.of_nat (length (durations_of type (pendingEstimates st)))
    /\ (getEstimate (idle_updateEstimates st) type
        == (Entry.mean e * inject_Z (Entry.length e)
            + Qsum (durations_of type (pendingEstimates st)))
           / inject_Z (Entry.length e'))%Q.
Proof.
  intros He Hpos.
  destruct (updateEstimates_loop_entry type (pendingEstimates st) (estimates st) e He Hpos)
    as (e' & Hf & Hlen & Hmean).
  exists e'. unfold getEstimate.
  change (estimates (idle_updateEstimates st))
    with (fold_left updateEstimates_iter (pendingEstimates st) (estimates st)).
  rewrite Hf. split; [reflexivity|]. split; [exact Hlen|].
  assert (~ inject_Z (Entry.length e') == 0)%Q as Hn.
  { change 0%Q with (inject_Z 0). rewrite inject_Z_injective. lia. }
  apply Qmult_inj_r with (inject_Z (Entry.length e')); [exact Hn|].
  rewrite Hmean. field. exact Hn.
Qed.

Lemma recomputation_weighs_entry_witness :
  exists e',
    estimates (idle_updateEstimates (idle_updateEstimates queued_station)) !! "add" = Some e'
    /\ Entry.length e'
       = Entry.length (Entry.mk 1 (4 # 1))
         + Z.of_nat (length (durations_of "add"
             (pendingEstimates (idle_updateEstimates queued_station))))
    /\ (getEstimate (idle_updateEstimates (idle_updateEstimates queued_station)) "add"
        == (Entry.mean (Entry.mk 1 (4 # 1)) * inject_Z (Entry.length (Entry.mk 1 (4 # 1)))
            + Qsum (durations_of "add"
                (pendingEstimates (idle_updateEstimates queued_station))))
           / inject_Z (Entry.length e'))%Q.
Proof.
  apply (recomputation_weighs_entry (idle_updateEstimates queued_station) "add"
           (Entry.mk 1 (4 # 1))).
  - vm_compute. reflexivity.
  - simpl. lia.
Defined.

(** X9. One run of the recomputation, for a type without an entry and with
    at least one sample in the buffer: the estimate of the type becomes the
    arithmetic mean of its samples in the buffer, and the entry counts them. *)
Theorem recomputation_first_mean (st : State) (type : string) :
  estimates st !! type = None ->
  (0 < length (durations_of type (pendingEstimates st)))%nat ->
  exists e,
    estimates (idle_updateEstimates st) !! type = Some e
    /\ Entry.length e = Z.of_nat (length (durations_of type (pendingEstimates st)))
    /\ (getEstimate (idle_updateEstimates st) type
        == Qsum (durations_of type (pendingEstimates st))
           / inject_Z (Z.of_nat (length (durations_of type (pendingEstimates st)))))%Q.
Proof.
  intros He Hlen.
  destruct (updateEstimates_loop_mean type (pendingEstimates st) (estimates st) He)
    as (e & Hf & Hl & Hmean).
  { intros Hnil. rewrite Hnil in Hlen. simpl in Hlen. lia. }
  exists e. unfold getEstimate.
  change (estimates (idle_updateEstimates st))
    with (fold_left updateEstimates_iter (pendingEstimates st) (estimates st)).
  rewrite Hf. auto.
Qed.

Lemma recomputation_first_mean_witness :
  exists e,
    estimates (idle_updateEstimates queued_station) !! "add" = Some e
    /\ Entry.length e
       = Z.of_nat (length (durations_of "add" (pendingEstimates queued_station)))
    /\ (getEstimate (idle_updateEstimates queued_station) "add"
        == Qsum (durations_of "add" (pendingEstimates queued_station))
           / inject_Z (Z.of_nat (length (durations_of "add"
               (pendingEstimates queued_station)))))%Q.
Proof.
  apply (recomputation_first_mean queued_station "add").
  - reflexivity.
  - vm_compute. lia.
Defined.

(** ** Every handler as a sequence of assignments *)

Lemma touches_one (st st' : State) (eff : list Effect) :
  touch st eff st' -> touches st eff st'.
Proof.
  intros H. rewrite <- (app_nil_r eff). eapply touches_cons; [exact H|constructor].
Qed.

Lemma touches_app (st st' st'' : State) (eff eff' : list Effect) :
  touches st eff st' -> touches st' eff' st'' -> touches st (eff ++ eff') st''.
Proof.
  induction 1 as [|st0 st1 st2 e1 e2 Ht _ IH]; intros H2; [exact H2|].
  rewrite <- app_assoc. eapply touches_cons; [exact Ht|]. apply IH. exact H2.
Qed.

Lemma schedule_touches (st st' : State) (c : UnionWorkerCallRequest)
    (priority b : bool) (eff : list Effect) :
  schedule st c priority = Ok (b, st', eff) -> touches st eff st'.
Proof.
  intros H. destruct b.
  - apply schedule_true_inv in H as (r & k & w & Hk & Hw & -> & ->).
    apply touches_one. apply (touch_charge st priority c r k w Hk Hw).
  - destruct (schedule_cases st c priority) as [[_ Hs]|(r & k & _ & _ & Hs)];
      rewrite Hs in H.
    + injection H as <- <-. constructor.
    + destruct (workers st !! k); discriminate.
Qed.

Lemma call_ready_touches (st st' : State) (a : CallArgs) (eff : list Effect) :
  call_ready st a = Ok (st', eff) -> touches st eff st'.
Proof.
  unfold call_ready. intros H. inv_bind H. destruct a0 as [[b st1] eff1].
  set (st0 := set_jobs _ _) in *. set (c := mkCall _ _ _ _) in *.
  destruct b; injection H as <- <-.
  - change eff1 with ([] ++ eff1). eapply touches_cons; [apply touch_take_id|].
    eapply schedule_touches. exact Hm.
  - destruct (schedule_cases st0 c (arg_priority a)) as [[_ Hs']|(r & k & _ & _ & Hs')];
      rewrite Hs' in Hm.
    + injection Hm as <- <-. apply touches_one.
      apply (touch_take_id_enqueue st c). reflexivity.
    + destruct (workers st0 !! k); discriminate.
Qed.

Lemma resume_all_touches (suspended : list CallArgs) :
  forall (st st' : State) (eff : list Effect),
    resume_all st suspended = Ok (st', eff) -> touches st eff st'.
Proof.
  induction suspended as [|a suspended IH]; intros st st' eff H; simpl in H.
  - injection H as <- <-. constructor.
  - inv_bind H. destruct a0 as [st1 eff1]. inv_bind H. destruct a0 as [st2 eff2].
    injection H as <- <-.
    eapply touches_app; [eapply call_ready_touches; eauto|eapply IH; eauto].
Qed.

Lemma microtasks_touches (st st' : State) (eff : list Effect) :
  microtasks st = Ok (st', eff) -> touches st eff st'.
Proof.
  unfold microtasks. destruct (isReady st); intros H.
  - change eff with ([] ++ eff). eapply touches_cons; [apply touch_awaken|].
    eapply resume_all_touches. exact H.
  - injection H as <- <-. constructor.
Qed.

Lemma reflow_loop_touches (rest : list UnionWorkerCallRequest) :
  forall (st st' : State) (i k : nat) (eff : list Effect),
    reflow_loop st rest i = Ok (k, st', eff) -> touches st eff st'.
Proof.
  induction rest as [|job rest IH]; intros st st' i k eff H; simpl in H.
  - injection H as _ <- <-. constructor.
  - inv_bind H. destruct a as [[b st1] eff1].
    pose proof (schedule_touches _ _ _ _ _ _ Hm) as Hs. destruct b.
    + inv_bind H. destruct a as [[k' st2] eff2]. injection H as _ <- <-.
      eapply touches_app; [exact Hs|eapply IH; eauto].
    + injection H as _ <- <-. exact Hs.
Qed.

Lemma reflow_fn_touches (st st' : State) (eff : list Effect) :
  reflow_fn st = Ok (st', eff) -> touches st eff st'.
Proof.
  unfold reflow_fn. destruct (globalQueue st).
  - intros [= <- <-]. constructor.
  - intros H. inv_bind H. destruct a as [[k st1] eff1]. injection H as <- <-.
    rewrite <- (app_nil_r eff1).
    eapply touches_app; [eapply reflow_loop_touches; eauto|].
    apply touches_one. apply touch_dequeue.
Qed.

Lemma updateEstimates_touches (st : State) : touches st [] (updateEstimates st).
Proof.
  unfold updateEstimates. destruct (updateEstimates_scheduled st); [constructor|].
  apply touches_one. apply touch_updateEstimates_scheduled.
Qed.

Lemma reflow_touches (st : State) : touches st [] (reflow st).
Proof.
  unfold reflow. destruct (reflow_scheduled st); [constructor|].
  apply touches_one. apply touch_reflow_scheduled.
Qed.

Lemma onMessage_touches (st st' : State) (i : nat) (data : UnionWorkerResponse)
    (eff : list Effect) :
  onMessage st i data = Ok (st', eff) -> touches st eff st'.
Proof.
  destruct data as [|id type result dt]; unfold onMessage; intros H.
  - destruct (workers st !! i) as [w|] eqn:Hw; [|discriminate]. simpl in H.
    destruct (_ =? _); injection H as <- <-.
    + eapply (touches_cons st _ _ [PostMessage w (setup_ack (localQueueSize st))]
                [ResolveIsReady]); [apply (touch_ack st i w Hw)|].
      apply touches_one. apply touch_open.
    + apply touches_one. apply (touch_ack st i w Hw).
  - assert (exists st0 eff0, touches st eff0 st0
              /\ match workerStatus st0 !! i with
                 | None => Throw TypeError
                 | Some status =>
                     let status :=
                       mkStatus (estimate status - getEstimate st0 type)%Q
                                (running status - 1) in
                     let st := set_workerStatus (<[i := status]> (workerStatus st0)) st0 in
                     let st := set_pendingEstimates (pendingEstimates st ++ [(type, dt)]) st in
                     let st := updateEstimates st in
                     let st :=
                       if (running status =? 0) && negb (Nat.eqb (length (globalQueue st)) 0)
                       then reflow st else st in
                     Ok (st, eff0)
                 end = Ok (st', eff)) as (st0 & eff0 & H0 & H1).
    { destruct (jobs st !! id) as [c|] eqn:Hj.
      - eexists. eexists.
        split; [apply touches_one; apply (touch_resolve st id c result Hj)|].
        exact H.
      - exists st, []. split; [constructor|exact H]. }
    clear H. destruct (workerStatus st0 !! i) as [s|] eqn:Hs; [|discriminate].
    cbv zeta in H1. injection H1 as <- <-.
    rewrite <- (app_nil_r eff0).
    eapply touches_app; [exact H0|].
    change (@nil Effect) with ([] ++ [] ++ [] : list Effect).
    eapply touches_cons; [apply (touch_done st0 i s type dt Hs)|].
    eapply touches_app; [apply updateEstimates_touches|].
    destruct (_ && _); [apply reflow_touches|constructor].
Qed.

Lemma task_touches (st st' : State) (ev : Event) (eff : list Effect) :
  task st ev = Ok (st', eff) -> touches st eff st'.
Proof.
  destruct ev as [i data|a| |]; simpl; intros H.
  - eapply onMessage_touches; eauto.
  - unfold call in H. destruct (isReady st).
    + eapply call_ready_touches; eauto.
    + injection H as <- <-. apply touches_one. apply touch_await.
  - destruct (updateEstimates_scheduled st); injection H as <- <-; [|constructor].
    change (@nil Effect) with ([] ++ [] : list Effect).
    eapply touches_cons; [apply (touch_updateEstimates_scheduled _ false)|].
    apply touches_one. apply touch_recompute.
  - destruct (reflow_scheduled st).
    + change eff with ([] ++ eff).
      eapply touches_cons; [apply (touch_reflow_scheduled _ false)|].
      eapply reflow_fn_touches; eauto.
    + injection H as <- <-. constructor.
Qed.

Lemma step_touches (st st' : State) (ev : Event) (eff : list Effect) :
  step st ev = Ok (st', eff) -> touches st eff st'.
Proof.
  unfold step. intros H. inv_bind H. destruct a as [st1 eff1].
  inv_bind H. destruct a as [st2 eff2]. injection H as <- <-.
  eapply touches_app; [eapply task_touches|eapply microtasks_touches]; eauto.
Qed.

Lemma run_touches (evs : list Event) :
  forall (st st' : State) (eff : list Effect),
    run st evs = Ok (st', eff) -> touches st eff st'.
Proof.
  induction evs as [|ev evs IH]; intros st st' eff H; simpl in H.
  - injection H as <- <-. constructor.
  - inv_bind H. destruct a as [st1 eff1]. inv_bind H. destruct a as [st2 eff2].
    injection H as <- <-.
    eapply touches_app; [eapply step_touches|eapply IH]; eauto.
Qed.

(** ** The pool and the configuration never change; no handler raises *)

Lemma touch_config (st st' : State) (eff : list Effect) :
  touch st eff st' ->
  localQueueSize st' = localQueueSize st /\ fallbackTime st' = fallbackTime st
  /\ workers st' = workers st
  /\ length (workerStatus st') = length (workerStatus st).
Proof.
  destruct 1; unfold charged, updateEstimates_fn; simpl;
    rewrite ?length_insert; auto.
Qed.

Lemma touches_config (st st' : State) (eff : list Effect) :
  touches st eff st' ->
  localQueueSize st' = localQueueSize st /\ fallbackTime st' = fallbackTime st
  /\ workers st' = workers st
  /\ length (workerStatus st') = length (workerStatus st).
Proof.
  induction 1 as [|st st1 st2 e1 e2 Ht _ IH]; [auto|].
  apply touch_config in Ht. destruct Ht as (?&?&?&?), IH as (?&?&?&?).
  repeat split; congruence.
Qed.









(** ** Job ids *)

Lemma touches_inv (P : State -> Prop) :
  (forall st st' eff, touch st eff st' -> P st -> P st') ->
  forall st eff st', touches st eff st' -> P st -> P st'.
Proof.
  intros Hstep st eff st' H. induction H as [|st st1 st2 e1 e2 Ht _ IH]; [auto|].
  intros HP. apply IH. eapply Hstep; eauto.
Qed.

Lemma touch_ids_ok (st st' : State) (eff : list Effect) :
  touch st eff st' -> ids_ok st -> ids_ok st'.
Proof.
  intros Ht (Hjobs & Hq & Hinc).
  destruct Ht; unfold ids_ok, charged, updateEstimates_fn; simpl;
    try (split; [exact Hjobs|split; [exact Hq|exact Hinc]]).
  - (* take_id *)
    split; [|split; [|exact Hinc]].
    + intros id' c' Hl. destruct (decide (jobId st = id')) as [<-|Hne].
      * rewrite lookup_insert_eq in Hl. injection Hl as <-. split; [reflexivity|lia].
      * rewrite lookup_insert_ne in Hl by exact Hne.
        apply Hjobs in Hl. split; [tauto|lia].
    + intros i c' Hl. apply Hq in Hl. lia.
  - (* take_id_enqueue *)
    split; [|split].
    + intros id' c' Hl. destruct (decide (jobId st = id')) as [<-|Hne].
      * rewrite lookup_insert_eq in Hl. injection Hl as <-. split; [reflexivity|lia].
      * rewrite lookup_insert_ne in Hl by exact Hne.
        apply Hjobs in Hl. split; [tauto|lia].
    + intros i c' Hl. apply lookup_app_Some in Hl as [Hl|[_ Hl]].
      * apply Hq in Hl. lia.
      * apply list_lookup_singleton_Some in Hl as [_ <-]. lia.
    + intros i j c1 c2 Hij H1 H2.
      apply lookup_app_Some in H2 as [H2|[Hj H2]].
      * rewrite lookup_app_l in H1 by (apply lookup_lt_Some in H2; lia). eauto.
      * apply list_lookup_singleton_Some in H2 as [Hj' <-].
        rewrite lookup_app_l in H1 by lia. apply Hq in H1. lia.
  - (* dequeue *)
    split; [exact Hjobs|split].
    + intros i c' Hl. rewrite lookup_drop in Hl. eauto.
    + intros i j c1 c2 Hij H1 H2. rewrite lookup_drop in H1, H2.
      eapply (Hinc (k + i)%nat (k + j)%nat); eauto. lia.
  - (* resolve *)
    split; [|split; [exact Hq|exact Hinc]].
    intros id' c' Hl. apply lookup_delete_Some in Hl as [_ Hl]. eauto.
Qed.

Lemma constructor_ids_ok (hardwareConcurrency : Z) (url : string)
    (options : UnionStationOptions) (st : State) :
  constructor hardwareConcurrency url options = Ok st -> ids_ok st /\ jobId st = 0.
Proof.
  intros H. apply constructor_Ok in H
    as (_ & _ & _ & _ & _ & Hid & Hjobs & _ & _ & _ & _ & Hq & _).
  unfold ids_ok. rewrite Hjobs, Hq. split; [|exact Hid].
  split; [|split].
  - intros id c Hl. rewrite lookup_empty in Hl. discriminate.
  - intros i c Hl. rewrite lookup_nil in Hl. discriminate.
  - intros i j c c' _ Hl. rewrite lookup_nil in Hl. discriminate.
Qed.

(** X11. From construction on, after any events: every pending future is
    registered under the id of its own call, and that id is below the next
    id to be given, so a new call never takes the id of a pending job. *)
Theorem pending_ids_below_next (hardwareConcurrency : Z) (url : string)
    (options : UnionStationOptions) (st0 st : State) (evs : list Event)
    (eff : list Effect) :
  constructor hardwareConcurrency url options = Ok st0 ->
  run st0 evs = Ok (st, eff) ->
  jobs st !! jobId st = None
  /\ forall id c, jobs st !! id = Some c -> c = id /\ id < jobId st.
Proof.
  intros Hc Hrun. apply constructor_ids_ok in Hc as [Hids _].
  apply run_touches in Hrun.
  pose proof (touches_inv ids_ok touch_ids_ok _ _ _ Hrun Hids) as (Hjobs & _).
  split; [|exact Hjobs].
  destruct (jobs st !! jobId st) as [c|] eqn:E; [|reflexivity].
  apply Hjobs in E. lia.
Qed.

Lemma pending_ids_below_next_witness :
  exists st0 st eff,
    constructor 2 "worker.js" capacity_1 = Ok st0
    /\ run st0 [Message 0 setup; Call add_args; Call add_args] = Ok (st, eff)
    /\ jobs st !! jobId st = None
    /\ forall id c, jobs st !! id = Some c -> c = id /\ id < jobId st.
Proof.
  do 3 eexists. split; [vm_compute; reflexivity|]. split; [vm_compute; reflexivity|].
  eapply (pending_ids_below_next 2 "worker.js" capacity_1 _ _
            [Message 0 setup; Call add_args; Call add_args]).
  - vm_compute. reflexivity.
  - vm_compute. reflexivity.
Defined.



(** ** The estimate table only grows *)

Lemma updateEstimates_iter_grows (est : gmap string Entry.t) (sample : string * Q)
    (type : string) (e : Entry.t) :
  est !! type = Some e ->
  exists e', updateEstimates_iter est sample !! type = Some e'
    /\ Entry.length e <= Entry.length e'.
Proof.
  intros He. destruct sample as [type' dt].
  destruct (decide (type' = type)) as [->|Hne].
  - unfold updateEstimates_iter. rewrite He, lookup_insert_eq.
    eexists. split; [reflexivity|]. simpl. lia.
  - rewrite updateEstimates_iter_other by exact Hne. exists e. split; [exact He|lia].
Qed.

Lemma updateEstimates_loop_grows (buffer : list (string * Q)) :
  forall (est : gmap string Entry.t) (type : string) (e : Entry.t),
    est !! type = Some e ->
    exists e', fold_left updateEstimates_iter buffer est !! type = Some e'
      /\ Entry.length e <= Entry.length e'.
Proof.
  induction buffer as [|sample buffer IH]; intros est type e He; cbn [fold_left].
  - exists e. split; [exact He|lia].
  - destruct (updateEstimates_iter_grows est sample type e He) as (e1 & H1 & Hle1).
    destruct (IH _ _ _ H1) as (e2 & H2 & Hle2).
    exists e2. split; [exact H2|lia].
Qed.

Lemma touch_estimates_grow (st st' : State) (eff : list Effect) :
  touch st eff st' -> estimates_grow st st'.
Proof.
  intros Ht type e He.
  destruct Ht; unfold charged; simpl;
    try (exists e; split; [exact He|lia]).
  apply updateEstimates_loop_grows. exact He.
Qed.

Lemma touches_estimates_grow (st st' : State) (eff : list Effect) :
  touches st eff st' -> estimates_grow st st'.
Proof.
  induction 1 as [st|st st1 st2 e1 e2 Ht _ IH]; intros type e He.
  - exists e. split; [exact He|lia].
  - destruct (touch_estimates_grow _ _ _ Ht type e He) as (e1' & H1 & Hle1).
    destruct (IH type e1' H1) as (e2' & H2 & Hle2).
    exists e2'. split; [exact H2|lia].
Qed.

(** X13. No event removes an entry from the estimate table or lowers its
    sample count: a type that has an estimate keeps one (and so never falls
    back to the fallback time again). *)
Theorem estimates_never_deleted (st st' : State) (evs : list Event) (eff : list Effect)
    (type : string) (e : Entry.t) :
  run st evs = Ok (st', eff) ->
  estimates st !! type = Some e ->
  exists e',
    estimates st' !! type = Some e'
    /\ Entry.length e <= Entry.length e'
    /\ getEstimate st' type = Entry.mean e'.
Proof.
  intros Hrun He. apply run_touches in Hrun.
  destruct (touches_estimates_grow _ _ _ Hrun type e He) as (e' & He' & Hle).
  exists e'. unfold getEstimate. rewrite He'. auto.
Qed.

Lemma estimates_never_deleted_witness :
  exists st' eff,
    run (idle_updateEstimates queued_station)
      [IdleReflow; Message 0 (done_ 1 "add" (Num 15) (6 # 1)); IdleUpdateEstimates]
    = Ok (st', eff)
    /\ exists e',
         estimates st' !! "add" = Some e'
         /\ Entry.length (Entry.mk 1 (4 # 1)) <= Entry.length e'
         /\ getEstimate st' "add" = Entry.mean e'.
Proof.
  do 2 eexists. split; [vm_compute; reflexivity|].
  eapply (estimates_never_deleted (idle_updateEstimates queued_station) _
            [IdleReflow; Message 0 (done_ 1 "add" (Num 15) (6 # 1)); IdleUpdateEstimates]).
  - vm_compute. reflexivity.
  - vm_compute. reflexivity.
Defined.

(** ** Conservation of the running counts *)

Lemma total_running_insert (ws : list WorkerStatus) (i : nat) (s s' : WorkerStatus) :
  ws !! i = Some s ->
  foldr Z.add 0 (running <$> <[i := s']> ws)
  = foldr Z.add 0 (running <$> ws) - running s + running s'.
Proof.
  revert i. induction ws as [|x ws IH]; intros i Hi.
  - rewrite lookup_nil in Hi. discriminate.
  - destruct i as [|i]; csimpl in *.
    + injection Hi as ->. lia.
    + rewrite (IH i Hi). lia.
Qed.

Lemma posts_app (eff eff' : list Effect) : posts (eff ++ eff') = posts eff + posts eff'.
Proof.
  induction eff as [|e eff IH]; [reflexivity|].
  destruct e as [w [q|c|c]| |]; simpl; rewrite IH; lia.
Qed.

Lemma touch_conserves (st st' : State) (eff : list Effect) :
  touch st eff st' ->
  total_running st' + Z.of_nat (length (pendingEstimates st')) - posts eff
  = total_running st + Z.of_nat (length (pendingEstimates st)).
Proof.
  destruct 1 as [st priority c r k w Hk Hw| | | | | | | | |st i s type dt Hs| | |];
    unfold total_running, updateEstimates_fn; simpl; try lia.
  - apply eligibleWorkers_lt in Hk as [Hr _].
    destruct (lookup_lt_is_Some_2 _ _ Hr) as [s Hs].
    rewrite (total_running_insert _ _ _ _ Hs), (deref_lookup _ _ _ Hs).
    destruct priority; simpl; lia.
  - rewrite (total_running_insert _ _ _ _ Hs), length_app. simpl. lia.
Qed.

Lemma touches_conserve (st st' : State) (eff : list Effect) :
  touches st eff st' ->
  total_running st' + Z.of_nat (length (pendingEstimates st')) - posts eff
  = total_running st + Z.of_nat (length (pendingEstimates st)).
Proof.
  induction 1 as [|st st1 st2 e1 e2 Ht _ IH]; [simpl; lia|].
  apply touch_conserves in Ht. rewrite posts_app. lia.
Qed.

(** X14. From construction on, after any events: the [running] counts of
    the pool add up to the number of jobs posted to workers minus the number
    of [done] messages processed (each of which recorded one sample). *)
Theorem running_counts_add_up (hardwareConcurrency : Z) (url : string)
    (options : UnionStationOptions) (st0 st : State) (evs : list Event)
    (eff : list Effect) :
  constructor hardwareConcurrency url options = Ok st0 ->
  run st0 evs = Ok (st, eff) ->
  total_running st = posts eff - Z.of_nat (length (pendingEstimates st)).
Proof.
  intros Hc Hrun. apply run_touches, touches_conserve in Hrun.
  apply constructor_Ok in Hc as (_ & _ & Hs & _ & _ & _ & _ & _ & _ & _ & Hp & _).
  rewrite Hp in Hrun. simpl in Hrun.
  assert (total_running st0 = 0) as H0.
  { unfold total_running. rewrite Hs.
    generalize (Z.to_nat ((hardwareConcurrency - 1) `min` default 4 (opt_maxWorkers options))).
    intros n. induction n as [|n IH]; csimpl; [reflexivity|]. rewrite IH. reflexivity. }
  lia.
Qed.

Lemma running_counts_add_up_witness :
  exists st0 st eff,
    constructor 2 "worker.js" capacity_1 = Ok st0
    /\ run st0 [Message 0 setup; Call add_args; Call add_priority_args;
                Message 0 (done_ 0 "add" Undefined (3 # 1))] = Ok (st, eff)
    /\ total_running st = posts eff - Z.of_nat (length (pendingEstimates st)).
Proof.
  do 3 eexists. split; [vm_compute; reflexivity|]. split; [vm_compute; reflexivity|].
  eapply (running_counts_add_up 2 "worker.js" capacity_1 _ _
            [Message 0 setup; Call add_args; Call add_priority_args;
             Message 0 (done_ 0 "add" Undefined (3 # 1))]).
  - vm_compute. reflexivity.
  - vm_compute. reflexivity.
Defined.

(** ** The capacity bound *)

Lemma touch_within_capacity (st st' : State) (eff : list Effect) :
  touch st eff st' ->
  Forall (fun e => ~ is_call_priority e) eff ->
  Forall (fun s => running s <= localQueueSize st) (workerStatus st) ->
  Forall (fun s => running s <= localQueueSize st') (workerStatus st').
Proof.
  intros Ht Hnp Hcap.
  destruct Ht as [st priority c r k w Hk Hw| | | | | | | | |st i s type dt Hs| | |];
    unfold updateEstimates_fn; simpl; try exact Hcap.
  - destruct priority.
    + exfalso. apply Forall_cons in Hnp as [Hnp _]. apply Hnp. exists w, c. reflexivity.
    + assert (r ∈ eligibleWorkers st false) as Hin
        by (eapply list_elem_of_lookup_2; eauto).
      apply elem_of_eligibleWorkers in Hin as (s & Hs & Hlt).
      apply Forall_insert; [exact Hcap|].
      rewrite (deref_lookup _ _ _ Hs). simpl. lia.
  - apply Forall_insert; [exact Hcap|]. simpl.
    pose proof (Forall_lookup_1 _ _ _ _ Hcap Hs) as Hle. simpl in Hle. lia.
Qed.

Lemma touches_within_capacity (st st' : State) (eff : list Effect) :
  touches st eff st' ->
  Forall (fun e => ~ is_call_priority e) eff ->
  Forall (fun s => running s <= localQueueSize st) (workerStatus st) ->
  Forall (fun s => running s <= localQueueSize st') (workerStatus st').
Proof.
  induction 1 as [|st st1 st2 e1 e2 Ht _ IH]; intros Hnp Hcap; [exact Hcap|].
  apply Forall_app in Hnp as [Hnp1 Hnp2].
  apply IH; [exact Hnp2|]. eapply touch_within_capacity; eauto.
Qed.

(** X15. From construction on, with a capacity that is not negative: as
    long as no [call_priority] message has been posted, no worker's
    [running] count exceeds [localQueueSize]. *)
Theorem capacity_respected_without_priority (hardwareConcurrency : Z) (url : string)
    (options : UnionStationOptions) (st0 st : State) (evs : list Event)
    (eff : list Effect) :
  constructor hardwareConcurrency url options = Ok st0 ->
  0 <= localQueueSize st0 ->
  run st0 evs = Ok (st, eff) ->
  Forall (fun e => ~ is_call_priority e) eff ->
  localQueueSize st = localQueueSize st0
  /\ Forall (fun s => running s <= localQueueSize st) (workerStatus st).
Proof.
  intros Hc Hq Hrun Hnp. apply run_touches in Hrun.
  split; [apply (touches_config _ _ _ Hrun)|].
  apply (touches_within_capacity _ _ _ Hrun Hnp).
  apply constructor_Ok in Hc as (_ & _ & Hs & _).
  rewrite Hs. apply Forall_forall. intros s Hin.
  apply elem_of_replicate in Hin as [-> _]. simpl. exact Hq.
Qed.

Lemma capacity_respected_without_priority_witness :
  exists st0 st eff,
    constructor 2 "worker.js" capacity_1 = Ok st0
    /\ run st0 [Message 0 setup; Call add_args; Call add_args;
                Message 0 (done_ 0 "add" Undefined (3 # 1)); IdleReflow] = Ok (st, eff)
    /\ localQueueSize st = localQueueSize st0
    /\ Forall (fun s => running s <= localQueueSize st) (workerStatus st).
Proof.
  do 3 eexists. split; [vm_compute; reflexivity|]. split; [vm_compute; reflexivity|].
  eapply (capacity_respected_without_priority 2 "worker.js" capacity_1 _ _
            [Message 0 setup; Call add_args; Call add_args;
             Message 0 (done_ 0 "add" Undefined (3 # 1)); IdleReflow]).
  - vm_compute. reflexivity.
  - vm_compute. discriminate.
  - vm_compute. reflexivity.
  - repeat constructor; intros (w & c & H); discriminate H.
Defined.

(** ** Futures *)

Lemma resolved_app (eff eff' : list Effect) :
  resolved (eff ++ eff') = resolved eff ++ resolved eff'.
Proof.
  induction eff as [|e eff IH]; [reflexivity|].
  destruct e; simpl; rewrite IH; reflexivity.
Qed.

Lemma touch_resolved_ok (st st' : State) (eff : list Effect) (R : list Completer) :
  touch st eff st' -> resolved_ok st R -> resolved_ok st' (R ++ (resolved eff).*1).
Proof.
  intros Ht (Hids & HR & Hnd).
  split; [eapply touch_ids_ok; eauto|].
  destruct Hids as (Hjobs & _).
  destruct Ht as [st priority c r k w Hk Hw|st|st c Hc| | | | | |st id c result Hj| | | |];
    unfold charged, updateEstimates_fn; simpl; rewrite ?app_nil_r;
    try (split; [exact HR|exact Hnd]).
  - split; [|exact Hnd]. intros c Hin. apply HR in Hin as [Hlt Hn].
    split; [lia|]. rewrite lookup_insert_ne by lia. exact Hn.
  - split; [|exact Hnd]. intros c' Hin. apply HR in Hin as [Hlt Hn].
    split; [lia|]. rewrite lookup_insert_ne by lia. exact Hn.
  - destruct (Hjobs _ _ Hj) as [-> Hlt]. split.
    + intros c Hin. apply elem_of_app in Hin as [Hin|Hin].
      * apply HR in Hin as [Hlt' Hn]. split; [exact Hlt'|].
        apply lookup_delete_None. auto.
      * apply list_elem_of_singleton in Hin as ->. split; [exact Hlt|].
        apply lookup_delete_eq.
    + apply NoDup_app. split; [exact Hnd|]. split; [|apply NoDup_singleton].
      intros c Hin Hin'. apply list_elem_of_singleton in Hin' as ->.
      apply HR in Hin as [_ Hn]. congruence.
Qed.

Lemma touches_resolved_ok (st st' : State) (eff : list Effect) :
  touches st eff st' ->
  forall R, resolved_ok st R -> resolved_ok st' (R ++ (resolved eff).*1).
Proof.
  induction 1 as [st|st st1 st2 e1 e2 Ht _ IH]; intros R HR.
  - simpl. rewrite app_nil_r. exact HR.
  - rewrite resolved_app, fmap_app, app_assoc. apply IH.
    eapply touch_resolved_ok; eauto.
Qed.

(** X16. From construction on, whatever events are processed (duplicate
    [done] messages among them), no future is resolved twice. *)
Theorem futures_resolved_at_most_once (hardwareConcurrency : Z) (url : string)
    (options : UnionStationOptions) (st0 st : State) (evs : list Event)
    (eff : list Effect) :
  constructor hardwareConcurrency url options = Ok st0 ->
  run st0 evs = Ok (st, eff) ->
  NoDup (resolved eff).*1
  /\ forall c, c ∈ (resolved eff).*1 -> jobs st !! c = None.
Proof.
  intros Hc Hrun. apply constructor_ids_ok in Hc as [Hids _].
  apply run_touches in Hrun.
  destruct (touches_resolved_ok _ _ _ Hrun []) as (_ & HR & Hnd).
  - split; [exact Hids|]. split; [|constructor].
    intros c Hin. apply elem_of_nil in Hin. contradiction.
  - simpl in *. split; [exact Hnd|]. intros c Hin. apply HR. exact Hin.
Qed.

Lemma futures_resolved_at_most_once_witness :
  exists st0 st eff,
    constructor 2 "worker.js" capacity_1 = Ok st0
    /\ run st0 [Message 0 setup; Call add_args;
                Message 0 (done_ 0 "add" (Num 15) (3 # 1));
                Message 0 (done_ 0 "add" (Num 15) (3 # 1))] = Ok (st, eff)
    /\ NoDup (resolved eff).*1
    /\ forall c, c ∈ (resolved eff).*1 -> jobs st !! c = None.
Proof.
  do 3 eexists. split; [vm_compute; reflexivity|]. split; [vm_compute; reflexivity|].
  eapply (futures_resolved_at_most_once 2 "worker.js" capacity_1 _ _
            [Message 0 setup; Call add_args;
             Message 0 (done_ 0 "add" (Num 15) (3 # 1));
             Message 0 (done_ 0 "add" (Num 15) (3 # 1))]).
  - vm_compute. reflexivity.
  - vm_compute. reflexivity.
Defined.

Lemma schedule_posts_only (st st' : State) (c : UnionWorkerCallRequest)
    (priority b : bool) (eff : list Effect) :
  schedule st c priority = Ok (b, st', eff) -> Forall is_call_post eff.
Proof.
  intros H.
  destruct (schedule_cases st c priority) as [[_ Hs]|(r & k & _ & _ & Hs)];
    rewrite Hs in H.
  - injection H as _ _ <-. constructor.
  - destruct (workers st !! k) as [w|]; [|discriminate]. injection H as _ _ <-.
    constructor; [|constructor]. exists w, priority, c. reflexivity.
Qed.

Lemma call_ready_posts_only (st st' : State) (a : CallArgs) (eff : list Effect) :
  call_ready st a = Ok (st', eff) -> Forall is_call_post eff.
Proof.
  unfold call_ready. intros H. inv_bind H. destruct a0 as [[b st1] eff1].
  apply schedule_posts_only in Hm. destruct b; injection H as _ <-; exact Hm.
Qed.

Lemma resume_all_posts_only (suspended : list CallArgs) :
  forall (st st' : State) (eff : list Effect),
    resume_all st suspended = Ok (st', eff) -> Forall is_call_post eff.
Proof.
  induction suspended as [|a suspended IH]; intros st st' eff H; simpl in H.
  - injection H as _ <-. constructor.
  - inv_bind H. destruct a0 as [st1 eff1]. inv_bind H. destruct a0 as [st2 eff2].
    injection H as _ <-. apply Forall_app. split.
    + eapply call_ready_posts_only; eauto.
    + eapply IH; eauto.
Qed.

Lemma reflow_loop_posts_only (rest : list UnionWorkerCallRequest) :
  forall (st st' : State) (i k : nat) (eff : list Effect),
    reflow_loop st rest i = Ok (k, st', eff) -> Forall is_call_post eff.
Proof.
  induction rest as [|job rest IH]; intros st st' i k eff H; simpl in H.
  - injection H as _ _ <-. constructor.
  - inv_bind H. destruct a as [[b st1] eff1]. apply schedule_posts_only in Hm.
    destruct b.
    + inv_bind H. destruct a as [[k' st2] eff2]. injection H as _ _ <-.
      apply Forall_app. split; [exact Hm|eapply IH; eauto].
    + injection H as _ _ <-. exact Hm.
Qed.

Lemma reflow_fn_posts_only (st st' : State) (eff : list Effect) :
  reflow_fn st = Ok (st', eff) -> Forall is_call_post eff.
Proof.
  unfold reflow_fn. destruct (globalQueue st).
  - intros [= _ <-]. constructor.
  - intros H. inv_bind H. destruct a as [[k st1] eff1]. injection H as _ <-.
    eapply reflow_loop_posts_only; eauto.
Qed.

Lemma microtasks_posts_only (st st' : State) (eff : list Effect) :
  microtasks st = Ok (st', eff) -> Forall is_call_post eff.
Proof.
  unfold microtasks. destruct (isReady st); intros H.
  - eapply resume_all_posts_only; eauto.
  - injection H as _ <-. constructor.
Qed.

Lemma posts_only_resolved (eff : list Effect) :
  Forall is_call_post eff -> resolved eff = [].
Proof.
  induction 1 as [|e eff (w & p & c & ->) _ IH]; [reflexivity|exact IH].
Qed.

(** X17. A future is resolved only by a [done] message whose id is pending,
    and then with the result that message carries; a [done] message with an
    id that is not pending, a [setup] message, a [call] and the idle
    callbacks resolve nothing. *)
Theorem resolved_only_by_done (st st' : State) (ev : Event) (eff : list Effect) :
  step st ev = Ok (st', eff) ->
  resolved eff =
    match ev with
    | Message _ (done_ id _ result _) =>
        match jobs st !! id with
        | Some c => [(c, result)]
        | None => []
        end
    | _ => []
    end.
Proof.
  unfold step. intros H. inv_bind H. destruct a as [st1 eff1].
  inv_bind H. destruct a as [st2 eff2]. injection H as _ <-.
  rewrite resolved_app.
  rewrite (posts_only_resolved eff2 (microtasks_posts_only _ _ _ Hm0)), app_nil_r.
  destruct ev as [i [|id type result dt]|a| |]; simpl in Hm.
  - destruct (workers st !! i); [|discriminate]. simpl in Hm.
    destruct (_ =? _); injection Hm as _ <-; reflexivity.
  - apply onMessage_done_Ok in Hm as (s & _ & _ & _ & _ & ->).
    destruct (jobs st !! id); reflexivity.
  - unfold call in Hm. destruct (isReady st).
    + apply posts_only_resolved. eapply call_ready_posts_only; eauto.
    + injection Hm as _ <-. reflexivity.
  - destruct (updateEstimates_scheduled st); injection Hm as _ <-; reflexivity.
  - destruct (reflow_scheduled st).
    + apply posts_only_resolved. eapply reflow_fn_posts_only; eauto.
    + injection Hm as _ <-. reflexivity.
Qed.

Lemma resolved_only_by_done_witness :
  exists st' eff,
    step busy_station (Message 0 (done_ 0 "add" (Num 15) (3 # 1))) = Ok (st', eff)
    /\ resolved eff =
         match jobs busy_station !! 0 with
         | Some c => [(c, Num 15)]
         | None => []
         end.
Proof.
  do 2 eexists. split; [vm_compute; reflexivity|].
  eapply (resolved_only_by_done busy_station _
            (Message 0 (done_ 0 "add" (Num 15) (3 # 1)))).
  vm_compute. reflexivity.
Defined.

(** ** Reflow *)

(** X18. A reflow pass on a well-formed pool leaves a job in the global
    queue only when no worker can take it: if the queue is not empty after
    the pass, every worker runs at least [localQueueSize] jobs. *)
Theorem reflow_stops_only_when_full (st st' : State) (eff : list Effect) :
  pool_ok st ->
  reflow_fn st = Ok (st', eff) ->
  (0 < length (globalQueue st'))%nat ->
  Forall (fun s => localQueueSize st' <= running s) (workerStatus st').
Proof.
  intros Hp H Hlen. unfold reflow_fn in H.
  destruct (globalQueue st) as [|job q] eqn:Hq.
  - injection H as <- _. rewrite Hq in Hlen. simpl in Hlen. lia.
  - destruct (reflow_loop_spec (job :: q) st 0 Hp) as (k & st1 & eff1 & Hloop & Hk & Hacc & Hstop).
    rewrite Hloop in H. simpl in H. injection H as <- _. simpl in *.
    rewrite (accepts_globalQueue _ _ _ _ Hacc), Hq in Hlen.
    rewrite length_drop in Hlen.
    destruct (lookup_lt_is_Some_2 (job :: q) k ltac:(lia)) as [job' Hjob].
    apply Hstop in Hjob. apply schedule_false_iff in Hjob.
    apply eligibleWorkers_nil in Hjob. exact Hjob.
Qed.

Lemma reflow_stops_only_when_full_witness :
  exists st' eff,
    reflow_fn queued_station = Ok (st', eff)
    /\ Forall (fun s => localQueueSize st' <= running s) (workerStatus st').
Proof.
  do 2 eexists. split; [vm_compute; reflexivity|].
  eapply (reflow_stops_only_when_full queued_station _
            [PostMessage 0%nat (call_plain (add_job 1))]).
  - reflexivity.
  - vm_compute. reflexivity.
  - vm_compute. lia.
Defined.

(** ** The calls suspended at the gate *)

Lemma call_ready_serves (st st' : State) (a : CallArgs) (eff : list Effect) :
  call_ready st a = Ok (st', eff) ->
  jobId st' = jobId st + 1
  /\ jobs st' = <[jobId st := jobId st]> (jobs st)
  /\ served st' eff a (jobId st)
  /\ exists more, globalQueue st' = globalQueue st ++ more.
Proof.
  unfold call_ready. intros H. inv_bind H. destruct a0 as [[b st1] eff1].
  set (st0 := set_jobs _ _) in *.
  change (mkCall (jobId st) (arg_name a) (arg_data a) (arg_workgroupLength a))
    with (request_of (jobId st) a) in *.
  destruct b.
  - injection H as <- <-.
    apply schedule_true_inv in Hm as (r & k & w & _ & _ & -> & ->).
    unfold charged. simpl. repeat split; auto.
    + left. exists w. apply list_elem_of_singleton. reflexivity.
    + exists []. rewrite app_nil_r. reflexivity.
  - injection H as <- <-.
    destruct (schedule_cases st0 (request_of (jobId st) a) (arg_priority a))
      as [[_ Hs]|(r & k & _ & _ & Hs)]; rewrite Hs in Hm.
    + injection Hm as <- <-. simpl. repeat split; auto.
      * right. simpl. apply elem_of_app. right. apply list_elem_of_singleton. reflexivity.
      * eauto.
    + destruct (workers st0 !! k); discriminate.
Qed.

Lemma resume_all_serves (suspended : list CallArgs) :
  forall (st st' : State) (eff : list Effect),
    resume_all st suspended = Ok (st', eff) ->
    jobId st' = jobId st + Z.of_nat (length suspended)
    /\ (forall id, id < jobId st -> jobs st' !! id = jobs st !! id)
    /\ (exists more, globalQueue st' = globalQueue st ++ more)
    /\ (forall n a, suspended !! n = Some a ->
          jobs st' !! (jobId st + Z.of_nat n) = Some (jobId st + Z.of_nat n)
          /\ served st' eff a (jobId st + Z.of_nat n)).
Proof.
  induction suspended as [|a suspended IH]; intros st st' eff H; simpl in H.
  - injection H as <- <-. simpl.
    split; [lia|]. split; [reflexivity|]. split.
    + exists []. rewrite app_nil_r. reflexivity.
    + intros n a Hn. rewrite lookup_nil in Hn. discriminate.
  - inv_bind H. destruct a0 as [st1 eff1]. inv_bind H. destruct a0 as [st2 eff2].
    injection H as <- <-.
    apply call_ready_serves in Hm as (Hid1 & Hjobs1 & Hserved1 & more1 & Hq1).
    apply IH in Hm0 as (Hid2 & Hold2 & (more2 & Hq2) & Hn2).
    split; [simpl length; lia|]. split; [|split].
    + intros id Hlt. rewrite Hold2 by lia. rewrite Hjobs1.
      apply lookup_insert_ne. lia.
    + exists (more1 ++ more2). rewrite Hq2, Hq1, app_assoc. reflexivity.
    + intros [|n] a' Hn; simpl in Hn.
      * injection Hn as <-. rewrite Z.add_0_r. split.
        -- rewrite Hold2 by lia. rewrite Hjobs1. apply lookup_insert_eq.
        -- destruct Hserved1 as [[w Hw]|Hin].
           ++ left. exists w. apply elem_of_app. left. exact Hw.
           ++ right. rewrite Hq2. apply elem_of_app. left. exact Hin.
      * destruct (Hn2 n a' Hn) as [Hj Hs].
        replace (jobId st + Z.of_nat (S n)) with (jobId st1 + Z.of_nat n) by lia.
        split; [exact Hj|].
        destruct Hs as [[w Hw]|Hin].
        -- left. exists w. apply elem_of_app. right. exact Hw.
        -- right. exact Hin.
Qed.

(** X19. When the gate has been resolved, the calls suspended at it are
    resumed first come, first served: the n-th of them takes the n-th next
    job id, its future is registered under that id, and its request is
    posted to a worker or put in the global queue; no caller stays
    suspended. *)
Theorem suspended_calls_served_in_order (st st' : State) (eff : list Effect) :
  isReady st = true ->
  microtasks st = Ok (st', eff) ->
  awaiting st' = []
  /\ jobId st' = jobId st + Z.of_nat (length (awaiting st))
  /\ forall n a, awaiting st !! n = Some a ->
       jobs st' !! (jobId st + Z.of_nat n) = Some (jobId st + Z.of_nat n)
       /\ served st' eff a (jobId st + Z.of_nat n).
Proof.
  unfold microtasks. intros -> H.
  pose proof (resume_all_kept _ _ _ _ H) as (_&_&_&_&_&Haw&_).
  apply resume_all_serves in H as (Hid & _ & _ & Hn).
  simpl in *. auto.
Qed.

Lemma suspended_calls_served_in_order_witness :
  exists st' eff,
    microtasks opening_station = Ok (st', eff)
    /\ awaiting st' = []
    /\ jobId st' = jobId opening_station + Z.of_nat (length (awaiting opening_station))
    /\ forall n a, awaiting opening_station !! n = Some a ->
         jobs st' !! (jobId opening_station + Z.of_nat n)
         = Some (jobId opening_station + Z.of_nat n)
         /\ served st' eff a (jobId opening_station + Z.of_nat n).
Proof.
  do 2 eexists. split; [vm_compute; reflexivity|].
  eapply (suspended_calls_served_in_order opening_station).
  - reflexivity.
  - vm_compute. reflexivity.
Defined.

(** ** The slot a job is posted to *)

Lemma filter_seq_position (P : nat -> Prop) `{forall x, Decision (P x)} (n r : nat) :
  (r < n)%nat -> P r ->
  filter P (seq 0 n) !! length (filter P (seq 0 r)) = Some r.
Proof.
  intros Hr HP.
  replace n with (r + S (n - S r))%nat by lia.
  rewrite seq_app, filter_app. simpl seq. rewrite filter_cons_True by exact HP.
  rewrite lookup_app_r by lia. rewrite Nat.sub_diag. reflexivity.
Qed.

(** X20. The worker a non-priority job is posted to: the status that is
    charged is the one of the leftmost least [estimate] among the workers
    below capacity, in some slot [r]; the message goes to the worker whose
    slot is the number of workers below capacity in the slots before [r].
    That is the worker of slot [r] itself when every worker before it is
    below capacity. *)
Theorem nonpriority_job_posted_slot (st st' : State) (c : UnionWorkerCallRequest)
    (eff : list Effect) :
  schedule st c false = Ok (true, st', eff) ->
  exists (r : StatusRef) (w : Worker),
    st' = charged st r (name c)
    /\ eff = [PostMessage w (call_plain c)]
    /\ running (deref st r) < localQueueSize st
    /\ workers st
       !! length (filter (fun j => running (deref st j) < localQueueSize st) (seq 0 r))
       = Some w
    /\ ((forall j, (j < r)%nat -> running (deref st j) < localQueueSize st) ->
        workers st !! r = Some w).
Proof.
  intros H. apply schedule_true_inv in H as (r & k & w & Hk & Hw & -> & ->).
  exists r, w. split; [reflexivity|]. split; [reflexivity|].
  assert (r ∈ eligibleWorkers st false) as Hin by (eapply list_elem_of_lookup_2; eauto).
  pose proof (eligibleWorkers_lt _ _ _ _ Hk) as [Hr _].
  unfold eligibleWorkers in Hin, Hk.
  apply list_elem_of_filter in Hin as [HP _].
  split; [exact HP|].
  assert (k = length (filter (fun j => running (deref st j) < localQueueSize st) (seq 0 r)))
    as Hpos.
  { eapply NoDup_lookup; [|exact Hk|].
    - apply NoDup_filter, NoDup_seq.
    - apply filter_seq_position; assumption. }
  split; [rewrite <- Hpos; exact Hw|].
  intros Hall. rewrite <- Hw. f_equal. rewrite Hpos.
  clear -Hall. induction r as [|r IH]; [reflexivity|].
  rewrite seq_S, filter_app, length_app.
  match goal with
  | |- _ = (?a + _)%nat =>
      assert (a = r) as -> by (symmetry; apply IH; intros j Hj; apply Hall; lia)
  end.
  rewrite Nat.add_0_l, filter_cons_True by (apply Hall; lia).
  rewrite filter_nil. simpl. lia.
Qed.

Lemma nonpriority_job_posted_slot_witness :
  exists (r : StatusRef) (w : Worker),
    charged one_busy_station 1%nat "add"
    = charged one_busy_station r (name (add_job 1))
    /\ [PostMessage 0%nat (call_plain (add_job 1))] = [PostMessage w (call_plain (add_job 1))]
    /\ running (deref one_busy_station r) < localQueueSize one_busy_station
    /\ workers one_busy_station
       !! length (filter (fun j => running (deref one_busy_station j)
                                   < localQueueSize one_busy_station) (seq 0 r))
       = Some w
    /\ ((forall j, (j < r)%nat ->
           running (deref one_busy_station j) < localQueueSize one_busy_station) ->
        workers one_busy_station !! r = Some w).
Proof.
  apply (nonpriority_job_posted_slot one_busy_station
           (charged one_busy_station 1%nat "add") (add_job 1)
           [PostMessage 0%nat (call_plain (add_job 1))]).
  vm_compute. reflexivity.
Defined.

Example opening_station_reached :
  exists st eff,
    after 2 capacity_1 [Call add_args; Call add_priority_args] = Ok (st, eff)
    /\ onMessage st 0 setup
       = Ok (opening_station, [PostMessage 0%nat (setup_ack 1); ResolveIsReady]).
Proof. do 2 eexists. split; vm_compute; reflexivity. Qed.
